(** * The one's-complement checksum of [src/bindings/digest.c]

    A shallow embedding of [digest_32_le] and the proofs of its
    specification.  The C routine is modelled statement by statement:
    the two 64-bit accumulators wrap modulo 2^64, the buffer is a partial
    byte memory addressed from the [data] pointer, read on a little-endian
    host, and the three [while] loops are instances of one loop combinator
    with an iteration budget that is proved sufficient for every call. *)

From Stdlib Require Import ZArith List Bool Lia.
From Stdlib Require Import Strings.Byte.
From Equations Require Import Equations.
Import ListNotations.

Open Scope Z_scope.

(** ** Machine arithmetic *)

(** [uint64_t] and [uint16_t] values are integers reduced modulo the width. *)
Definition wrap64 (z : Z) : Z := z mod 2 ^ 64.
Definition wrap16 (z : Z) : Z := z mod 2 ^ 16.

(** ** Outcomes of a run *)

(** A run either returns, reads a byte that is not readable ([Fault], the
    undefined behaviour of the C program), or exhausts the iteration budget
    of a loop ([Timeout]). *)
Inductive outcome (A : Type) : Type :=
| Done (a : A)
| Fault
| Timeout.

Arguments Done {A} a.
Arguments Fault {A}.
Arguments Timeout {A}.

Definition bind {A B : Type} (o : outcome A) (k : A -> outcome B) : outcome B :=
  match o with
  | Done a => k a
  | Fault => Fault
  | Timeout => Timeout
  end.

Notation "x <- e ;; k" := (bind e (fun x => k))
  (at level 61, e at next level, right associativity).

(** ** Memory *)

(** The memory seen through [data]: offset [i] holds a byte or is not
    readable.  A null or dangling pointer is a memory with no readable
    offset. *)
Definition mem : Type := Z -> option byte.

Definition byteZ (b : byte) : Z := Z.of_N (Byte.to_N b).

Definition load8 (m : mem) (p : Z) : outcome Z :=
  match m p with
  | Some b => Done (byteZ b)
  | None => Fault
  end.

(** A little-endian load of [n] bytes: the byte at the lowest address is the
    least significant one. *)
Fixpoint load_le (n : nat) (m : mem) (p : Z) : outcome Z :=
  match n with
  | O => Done 0
  | S k =>
      lo <- load8 m p ;;
      hi <- load_le k m (p + 1) ;;
      Done (lo + 2 ^ 8 * hi)
  end.

Definition load16 : mem -> Z -> outcome Z := load_le 2.
Definition load64 : mem -> Z -> outcome Z := load_le 8.

(** The memory that holds exactly the bytes of a buffer, from offset 0. *)
Definition buf (b : list byte) : mem :=
  fun i => if i <? 0 then None else nth_error b (Z.to_nat i).

(** ** The variables of [digest_32_le] *)

(** [cur] is the byte offset of the cursor ([u64], later [u16]) from [data].
    [ovf] is a ghost flag, not a variable of the C code: it records whether
    some unsigned addition executed so far exceeded 64 bits. *)
Record regs : Type := mkRegs {
  sum : Z;
  sum1 : Z;
  cur : Z;
  len : Z;
  ovf : bool
}.

(** [sum += x] *)
Definition add_sum (x : Z) (r : regs) : regs :=
  {| sum := wrap64 (sum r + x);
     sum1 := sum1 r;
     cur := cur r;
     len := len r;
     ovf := ovf r || (2 ^ 64 <=? sum r + x) |}.

(** [sum1 += x] *)
Definition add_sum1 (x : Z) (r : regs) : regs :=
  {| sum := sum r;
     sum1 := wrap64 (sum1 r + x);
     cur := cur r;
     len := len r;
     ovf := ovf r || (2 ^ 64 <=? sum1 r + x) |}.

(** [u += 1; len -= k] for a pointer to [k]-byte words *)
Definition advance (k : Z) (r : regs) : regs :=
  {| sum := sum r;
     sum1 := sum1 r;
     cur := cur r + k;
     len := len r - k;
     ovf := ovf r |}.

(** [sum = (sum & 0xffff) + (sum >> 16)] *)
Definition fold_step (s : Z) : Z := Z.land s 0xffff + Z.shiftr s 16.

Definition fold_assign (r : regs) : regs :=
  {| sum := wrap64 (fold_step (sum r));
     sum1 := sum1 r;
     cur := cur r;
     len := len r;
     ovf := ovf r || (2 ^ 64 <=? fold_step (sum r)) |}.

(** ** Loops *)

Fixpoint while (fuel : nat) (cond : regs -> bool)
    (body : regs -> outcome regs) (r : regs) : outcome regs :=
  match fuel with
  | O => Timeout
  | S k =>
      if cond r then r' <- body r ;; while k cond body r'
      else Done r
  end.

(** Lines 14-20: the 8-byte chunks, two 32-bit lanes. *)
Definition lanes_cond (r : regs) : bool := 8 <=? len r.

Definition lanes_body (data : mem) (r : regs) : outcome regs :=
  d <- load64 data (cur r) ;;
  Done (advance 8 (add_sum1 (Z.shiftr d 32) (add_sum (Z.land d 0xffffffff) r))).

(** Lines 25-29: the remaining 16-bit words. *)
Definition tail16_cond (r : regs) : bool := 2 <=? len r.

Definition tail16_body (data : mem) (r : regs) : outcome regs :=
  w <- load16 data (cur r) ;;
  Done (advance 2 (add_sum w r)).

(** Lines 32-33: the last byte. *)
Definition tail8 (data : mem) (r : regs) : outcome regs :=
  if len r =? 1 then b <- load8 data (cur r) ;; Done (add_sum b r)
  else Done r.

(** Lines 36-38: the end-around-carry fold. *)
Definition fold_cond (r : regs) : bool := negb (Z.shiftr (sum r) 16 =? 0).

Definition fold_body (r : regs) : outcome regs := Done (fold_assign r).

(** ** The routine *)

(** The iteration budget given to each loop of a call with length [n]. *)
Definition fuel_for (n : Z) : nat := 6 + Z.to_nat n.

Definition init (n : Z) : regs :=
  {| sum := 0; sum1 := 0; cur := 0; len := n; ovf := false |}.

(** Lines 10-20. *)
Definition lanes (data : mem) (n : Z) : outcome regs :=
  while (fuel_for n) lanes_cond (lanes_body data) (init n).

(** Lines 10-33: the state on entry to the fold loop. *)
Definition accumulate (data : mem) (n : Z) : outcome regs :=
  r <- lanes data n ;;
  r <- while (fuel_for n) tail16_cond (tail16_body data) (add_sum (sum1 r) r) ;;
  tail8 data r.

(** The value of [sum] on entry to the fold loop. *)
Definition presum (data : mem) (n : Z) : outcome Z :=
  r <- accumulate data n ;; Done (sum r).

Definition fold_loop (fuel : nat) (r : regs) : outcome regs :=
  while fuel fold_cond fold_body r.

(** Line 39: [(uint16_t)~sum]. *)
Definition result (r : regs) : Z := wrap16 (wrap64 (Z.lnot (sum r))).

(** The final state of a call. *)
Definition digest_state (data : mem) (n : Z) : outcome regs :=
  r <- accumulate data n ;; fold_loop (fuel_for n) r.

(** Modelled from the spec: the header of the OCaml runtime that declares
    the type [value] and the macros [CAMLparam2], [CAMLlocal3] and
    [CAMLreturn] is not among the sources.  Following the contract of the
    specification, [data] is the address of the first byte of the buffer,
    [len] is the byte length as a signed machine word (a negative length
    skips every loop), and [CAMLreturn] returns its argument. *)
Definition digest_32_le (data : mem) (n : Z) : outcome Z :=
  r <- digest_state data n ;; Done (result r).

(** Lines 36-39 alone, from a given value of [sum]. *)
Definition finish (s : Z) : outcome Z :=
  r <- fold_loop 6 {| sum := s; sum1 := 0; cur := 0; len := 0; ovf := false |} ;;
  Done (result r).

(** ** Buffers as lists of bytes *)

(** The little-endian value of a byte string. *)
Fixpoint le_combine (b : list byte) : Z :=
  match b with
  | [] => 0
  | x :: r => byteZ x + 2 ^ 8 * le_combine r
  end.

(** [holds m p b]: the bytes of [b] are readable in [m] from offset [p]. *)
Fixpoint holds (m : mem) (p : Z) (b : list byte) : Prop :=
  match b with
  | [] => True
  | x :: r => m p = Some x /\ holds m (p + 1) r
  end.

(** The exact (unbounded) sum of the 32-bit words at byte offset [off] of
    the first [q] 8-byte chunks of [b]: [lane 0] is what the chunk loop adds
    to [sum], [lane 4] what it adds to [sum1]. *)
Fixpoint lane (off q : nat) (b : list byte) : Z :=
  match q with
  | O => 0
  | S q' => le_combine (firstn 4 (skipn off b)) + lane off q' (skipn 8 b)
  end.

(** The 16-bit little-endian words of a buffer; an odd last byte is a word
    with a zero high byte. *)
Fixpoint words16 (b : list byte) : list Z :=
  match b with
  | [] => []
  | [x] => [byteZ x]
  | x :: y :: r => (byteZ x + 2 ^ 8 * byteZ y) :: words16 r
  end.

(** The exact sum of a list of words. *)
Definition total (ws : list Z) : Z := fold_right Z.add 0 ws.

(** The number of whole 8-byte chunks of a buffer. *)
Definition chunks (b : list byte) : nat := (length b / 8)%nat.

(** The exact value that the accumulation would reach in unbounded
    arithmetic. *)
Definition ideal_presum (b : list byte) : Z :=
  lane 0 (chunks b) b + lane 4 (chunks b) b
  + total (words16 (skipn (8 * chunks b) b)).

(** ** The one's-complement sum, as the specification words it *)

(** Addition modulo 2^16 with end-around carry. *)
Definition oc_add (x y : Z) : Z :=
  Z.land (x + y) 0xFFFF + Z.shiftr (x + y) 16.

(** The one's-complement sum of the 16-bit words of a buffer. *)
Definition oc_sum (b : list byte) : Z := fold_left oc_add (words16 b) 0.

(** The canonical representative that end-around-carry folding reaches:
    zero for zero, otherwise the residue modulo 2^16 - 1 taken in
    [1 .. 0xFFFF]. *)
Definition norm (x : Z) : Z :=
  if x =? 0 then 0 else (x - 1) mod 65535 + 1.

(** ** The byte-wise reference implementation *)

(** The end-around-carry fold, [x <- (x & 0xFFFF) + (x >> 16)] until
    [x < 2^16], on unbounded integers. *)
Equations? ref_fold (x : Z) : Z by wf (Z.to_nat x) lt :=
  ref_fold x with Z_lt_dec x 65536 => {
    | left _ := x;
    | right _ := ref_fold (x mod 65536 + x / 65536) }.
Proof.
  assert (0 <= x mod 65536 < 65536) by (apply Z.mod_pos_bound; lia).
  assert (x = 65536 * (x / 65536) + x mod 65536) by (apply Z.div_mod; lia).
  lia.
Qed.

(** Sum the 16-bit words two bytes at a time, fold, complement. *)
Fixpoint ref_sum (b : list byte) (acc : Z) : Z :=
  match b with
  | [] => acc
  | [x] => acc + byteZ x
  | x :: y :: r => ref_sum r (acc + Z.lor (byteZ x) (Z.shiftl (byteZ y) 8))
  end.

Definition ref_checksum (b : list byte) : Z :=
  Z.land (Z.lnot (ref_fold (ref_sum b 0))) 0xFFFF.

(** The state [r] with [sum] replaced by [s]. *)
Definition with_sum (s : Z) (r : regs) : regs :=
  {| sum := s; sum1 := sum1 r; cur := cur r; len := len r; ovf := ovf r |}.

(** [fold_settles B n]: from any value of [sum] below [B], a budget of [n]
    iterations lets the fold loop return, with [sum] folded to its canonical
    representative and no addition overflowing. *)
Definition fold_settles (B : Z) (n : nat) : Prop :=
  forall fuel r, (n <= fuel)%nat -> 0 <= sum r < B ->
    fold_loop fuel r = Done (with_sum (norm (sum r)) r).

(** Whether some addition of the accumulation (lines 14-33) exceeds 64 bits
    on the buffer [b]: in a lane, in the combination of the lanes, or in the
    tail. *)
Definition overflowed (b : list byte) : bool :=
  let l0 := lane 0 (chunks b) b in
  let l4 := lane 4 (chunks b) b in
  (2 ^ 64 <=? l0) || (2 ^ 64 <=? l4)
  || (2 ^ 64 <=? wrap64 l0 + wrap64 l4)
  || (2 ^ 64 <=? wrap64 (wrap64 l0 + wrap64 l4)
                 + total (words16 (skipn (8 * chunks b) b))).

(** The state after the chunk loop has consumed the [q] chunks of [b],
    started in state [r]. *)
Definition after_lanes (q : nat) (b : list byte) (r : regs) : regs :=
  {| sum := wrap64 (sum r + lane 0 q b);
     sum1 := wrap64 (sum1 r + lane 4 q b);
     cur := cur r + 8 * Z.of_nat q;
     len := len r - 8 * Z.of_nat q;
     ovf := ovf r || (2 ^ 64 <=? sum r + lane 0 q b)
                  || (2 ^ 64 <=? sum1 r + lane 4 q b) |}.

(** The state after the two tail passes have consumed [t], started in [r]. *)
Definition after_tail (t : list byte) (r : regs) : regs :=
  {| sum := wrap64 (sum r + total (words16 t));
     sum1 := sum1 r;
     cur := cur r + 2 * (Z.of_nat (length t) / 2);
     len := len r - 2 * (Z.of_nat (length t) / 2);
     ovf := ovf r || (2 ^ 64 <=? sum r + total (words16 t)) |}.

(** The cursor of a call with length [n] stays inside the buffer: it has
    not moved below [data], and what remains ends at offset [n]. *)
Definition in_bounds (n : Z) (r : regs) : Prop :=
  0 <= cur r /\ cur r + len r = n.

(** The accumulator holds a [uint64_t]. *)
Definition sum_in_range (r : regs) : Prop := 0 <= sum r < 2 ^ 64.

(** A buffer of [n] bytes, all equal to [0xFF]. *)
Definition all_ones (n : Z) : list byte := repeat xff (Z.to_nat n).

(** ** Buffers and values used to state further properties *)

(** The byte of value [z], for [0 <= z < 256]. *)
Definition byte_of_Z (z : Z) : byte :=
  match Byte.of_N (Z.to_N z) with
  | Some b => b
  | None => x00
  end.

(** The two bytes that store a 16-bit value in little-endian order. *)
Definition le16 (z : Z) : list byte :=
  [byte_of_Z (z mod 256); byte_of_Z (z / 256)].

(** The 16-bit value with its two bytes exchanged. *)
Definition bswap16 (z : Z) : Z := (z mod 256) * 256 + z / 256.

(** The buffer with the two bytes of every 16-bit word exchanged. *)
Fixpoint swap_pairs (b : list byte) : list byte :=
  match b with
  | x :: y :: r => y :: x :: swap_pairs r
  | _ => b
  end.

(** Every byte of the buffer is zero. *)
Definition all_zero (b : list byte) : Prop := Forall (fun x => x = x00) b.

(** The byte at offset [i], not yet passed by the cursor, that a run is
    bound to read. *)
Definition ahead (n i : Z) (r : regs) : Prop :=
  in_bounds n r /\ cur r <= i.

(** * Proofs *)

(** ** Arithmetic of the machine operations *)

Lemma wrap64_small (z : Z) : 0 <= z < 2 ^ 64 -> wrap64 z = z.
Proof. intros H. unfold wrap64. now apply Z.mod_small. Qed.

Lemma wrap64_range (z : Z) : 0 <= wrap64 z < 2 ^ 64.
Proof. unfold wrap64. apply Z.mod_pos_bound. lia. Qed.

Lemma wrap64_wrapped (z : Z) :
  2 ^ 64 <= z < 2 * 2 ^ 64 -> wrap64 z = z - 2 ^ 64.
Proof.
  intros H. unfold wrap64.
  rewrite <- (Z.mod_small (z - 2 ^ 64) (2 ^ 64)) by lia.
  replace z with (z - 2 ^ 64 + 1 * 2 ^ 64) at 1 by ring.
  apply Z.mod_add. lia.
Qed.

Lemma wrap64_add_l (a b : Z) : wrap64 (wrap64 a + b) = wrap64 (a + b).
Proof. unfold wrap64. apply Zplus_mod_idemp_l. Qed.

Lemma wrap64_add_r (a b : Z) : wrap64 (a + wrap64 b) = wrap64 (a + b).
Proof. unfold wrap64. apply Zplus_mod_idemp_r. Qed.

Lemma fold_step_arith (s : Z) : fold_step s = s mod 65536 + s / 65536.
Proof.
  unfold fold_step.
  change 0xffff with (Z.ones 16).
  rewrite Z.land_ones, Z.shiftr_div_pow2 by lia.
  reflexivity.
Qed.

Lemma shiftr16_zero (s : Z) : 0 <= s -> (Z.shiftr s 16 =? 0) = (s <? 65536).
Proof.
  intros H. rewrite Z.shiftr_div_pow2 by lia. change (2 ^ 16) with 65536.
  destruct (Z.ltb_spec s 65536) as [Hlt | Hge].
  - apply Z.eqb_eq. apply Z.div_small. lia.
  - apply Z.eqb_neq. intros E.
    assert (s = 65536 * (s / 65536) + s mod 65536) by (apply Z.div_mod; lia).
    assert (0 <= s mod 65536 < 65536) by (apply Z.mod_pos_bound; lia).
    lia.
Qed.

(** One fold step keeps the value in range, strictly decreases it above
    [0xFFFF], and leaves [norm] unchanged. *)
Lemma fold_step_facts (s : Z) :
  65536 <= s ->
  0 < fold_step s < s /\ fold_step s <= 65535 + s / 65536
  /\ norm (fold_step s) = norm s.
Proof.
  intros H. rewrite fold_step_arith.
  assert (Hm : 0 <= s mod 65536 < 65536) by (apply Z.mod_pos_bound; lia).
  assert (Hd : s = 65536 * (s / 65536) + s mod 65536) by (apply Z.div_mod; lia).
  assert (Hq : 1 <= s / 65536) by lia.
  repeat split; try lia.
  unfold norm.
  destruct (Z.eqb_spec (s mod 65536 + s / 65536) 0) as [E | _]; [lia |].
  destruct (Z.eqb_spec s 0) as [E | _]; [lia |].
  f_equal.
  replace (s - 1) with (s mod 65536 + s / 65536 - 1 + (s / 65536) * 65535) by lia.
  symmetry. apply Z.mod_add. lia.
Qed.

Lemma norm_small (s : Z) : 0 <= s < 65536 -> norm s = s.
Proof.
  intros H. unfold norm.
  destruct (Z.eqb_spec s 0) as [E | N]; [lia |].
  rewrite Z.mod_small by lia. lia.
Qed.

Lemma norm_range (s : Z) : 0 <= norm s < 65536.
Proof.
  unfold norm. destruct (Z.eqb_spec s 0); [lia |].
  assert (0 <= (s - 1) mod 65535 < 65535) by (apply Z.mod_pos_bound; lia).
  lia.
Qed.

(** ** The fold loop *)

Lemma with_sum_same (r : regs) : with_sum (sum r) r = r.
Proof. destruct r; reflexivity. Qed.

Lemma fold_assign_exact (r : regs) :
  65536 <= sum r < 2 ^ 64 -> fold_assign r = with_sum (fold_step (sum r)) r.
Proof.
  intros H. destruct (fold_step_facts (sum r)) as (Hlt & _ & _); [lia |].
  unfold fold_assign, with_sum.
  rewrite wrap64_small by lia.
  replace (2 ^ 64 <=? fold_step (sum r)) with false
    by (symmetry; apply Z.leb_gt; lia).
  rewrite orb_false_r. reflexivity.
Qed.

Lemma fold_loop_unroll (fuel : nat) (r : regs) :
  fold_loop (S fuel) r
  = if fold_cond r then fold_loop fuel (fold_assign r) else Done r.
Proof. reflexivity. Qed.

Lemma fold_cond_test (r : regs) :
  0 <= sum r -> fold_cond r = negb (sum r <? 65536).
Proof. intros H. unfold fold_cond. now rewrite shiftr16_zero. Qed.

Lemma fold_settles_base : fold_settles 65536 1.
Proof.
  intros [| fuel] r Hf Hs; [lia |].
  rewrite fold_loop_unroll, fold_cond_test by lia.
  replace (sum r <? 65536) with true by (symmetry; apply Z.ltb_lt; lia).
  simpl. rewrite norm_small by lia. now rewrite with_sum_same.
Qed.

Lemma fold_settles_step (B B' : Z) (n : nat) :
  fold_settles B n ->
  B' <= 2 ^ 64 ->
  (forall s, 65536 <= s < B' -> fold_step s < B) ->
  fold_settles B' (S n).
Proof.
  intros IH HB Hstep [| fuel] r Hf Hs; [lia |].
  destruct (Z_lt_dec (sum r) 65536) as [Hlt | Hge].
  - apply fold_settles_base; lia.
  - rewrite fold_loop_unroll, fold_cond_test by lia.
    replace (sum r <? 65536) with false by (symmetry; apply Z.ltb_ge; lia).
    simpl. rewrite fold_assign_exact by lia.
    destruct (fold_step_facts (sum r)) as (Hlt & _ & Hn); [lia |].
    rewrite IH; simpl.
    + unfold with_sum; simpl. now rewrite Hn.
    + lia.
    + specialize (Hstep (sum r)). lia.
Qed.

Lemma fold_settles_64 : fold_settles (2 ^ 64) 6.
Proof.
  apply (fold_settles_step (2 ^ 62)); [| lia |].
  apply (fold_settles_step (2 ^ 47)); [| lia |].
  apply (fold_settles_step (2 ^ 32)); [| lia |].
  apply (fold_settles_step (2 ^ 17 - 1)); [| lia |].
  apply (fold_settles_step 65536); [| lia |].
  apply fold_settles_base.
  all: intros s Hs; rewrite fold_step_arith; Z.div_mod_to_equations; lia.
Qed.

Lemma fuel_for_ge (n : Z) : (6 <= fuel_for n)%nat.
Proof. unfold fuel_for. lia. Qed.

Lemma result_small (r : regs) :
  0 <= sum r < 65536 -> result r = 65535 - sum r.
Proof.
  intros H. unfold result, wrap16, wrap64, Z.lnot.
  replace (Z.pred (- sum r)) with (2 ^ 64 - 1 - sum r + (-1) * 2 ^ 64) by lia.
  rewrite Z.mod_add by lia.
  rewrite (Z.mod_small _ (2 ^ 64)) by lia.
  replace (2 ^ 64 - 1 - sum r) with (65535 - sum r + (2 ^ 48 - 1) * 2 ^ 16) by lia.
  rewrite Z.mod_add by lia.
  apply Z.mod_small. lia.
Qed.

(** ** Bytes, words and memory *)

Lemma byteZ_range (x : byte) : 0 <= byteZ x <= 255.
Proof.
  unfold byteZ. pose proof (Byte.to_N_bounded x). lia.
Qed.

Lemma le_combine_range (b : list byte) :
  0 <= le_combine b < 2 ^ (8 * Z.of_nat (length b)).
Proof.
  induction b as [| x b IH]; [simpl; lia |].
  cbn [le_combine length].
  replace (8 * Z.of_nat (S (length b))) with (8 + 8 * Z.of_nat (length b)) by lia.
  rewrite Z.pow_add_r by lia.
  pose proof (byteZ_range x). lia.
Qed.

Lemma le_combine_word (b : list byte) (k : nat) :
  (length b <= k)%nat -> 0 <= le_combine b <= 2 ^ (8 * Z.of_nat k) - 1.
Proof.
  intros H. pose proof (le_combine_range b) as Hr.
  assert (2 ^ (8 * Z.of_nat (length b)) <= 2 ^ (8 * Z.of_nat k))
    by (apply Z.pow_le_mono_r; lia).
  lia.
Qed.

(** Induction over a list two elements at a time, the way the 16-bit
    passes walk a buffer. *)
Section PairInduction.
Variable A : Type.
Variable P : list A -> Prop.
Hypothesis P_nil : P [].
Hypothesis P_one : forall x, P [x].
Hypothesis P_two : forall x y t, P t -> P (x :: y :: t).

Lemma list_pair_ind : forall t, P t.
Proof.
  assert (H : forall t, P t /\ forall x, P (x :: t)).
  { induction t as [| y t [IH1 IH2]]; split; auto. }
  intros t. apply H.
Qed.
End PairInduction.

Lemma total_words16_range (b : list byte) :
  0 <= total (words16 b) <= 65535 * Z.of_nat (length b).
Proof.
  induction b as [| x | x y b IH] using list_pair_ind.
  - simpl. lia.
  - simpl. pose proof (byteZ_range x). lia.
  - cbn [words16 total fold_right length].
    fold (total (words16 b)).
    pose proof (byteZ_range x). pose proof (byteZ_range y). lia.
Qed.

Lemma holds_skipn (m : mem) (k : nat) :
  forall p b, holds m p b -> holds m (p + Z.of_nat k) (skipn k b).
Proof.
  induction k as [| k IH]; intros p b H.
  - simpl. now replace (p + 0) with p by lia.
  - destruct b as [| x b]; [exact I |].
    destruct H as [_ H]. cbn [skipn].
    replace (p + Z.of_nat (S k)) with (p + 1 + Z.of_nat k) by lia.
    now apply IH.
Qed.

Lemma holds_load (m : mem) (n : nat) :
  forall p b, holds m p b -> (n <= length b)%nat ->
    load_le n m p = Done (le_combine (firstn n b)).
Proof.
  induction n as [| n IH]; intros p b H Hn; [reflexivity |].
  destruct b as [| x b]; [simpl in Hn; lia |].
  destruct H as [Hx H]. cbn [load_le firstn le_combine].
  unfold load8. rewrite Hx. cbn [bind].
  rewrite (IH (p + 1) b) by (simpl in Hn; auto; lia).
  reflexivity.
Qed.

Lemma holds_from (m : mem) (b : list byte) :
  forall p, (forall i, (i < length b)%nat -> m (p + Z.of_nat i) = nth_error b i) ->
    holds m p b.
Proof.
  induction b as [| x b IH]; intros p H; [exact I |].
  split.
  - specialize (H 0%nat). simpl in H.
    replace (p + 0) with p in H by lia. apply H. lia.
  - apply IH. intros i Hi.
    specialize (H (S i)). cbn [nth_error length] in H.
    replace (p + 1 + Z.of_nat i) with (p + Z.of_nat (S i)) by lia.
    apply H. lia.
Qed.

Lemma holds_buf (b : list byte) : holds (buf b) 0 b.
Proof.
  apply holds_from. intros i _. unfold buf.
  replace (0 + Z.of_nat i <? 0) with false by (symmetry; apply Z.ltb_ge; lia).
  now rewrite Z.add_0_l, Nat2Z.id.
Qed.

(** ** The chunk loop *)

Lemma carry_split (s x y : Z) :
  0 <= s < 2 ^ 64 -> 0 <= x < 2 ^ 64 -> 0 <= y ->
  (2 ^ 64 <=? s + x) || (2 ^ 64 <=? wrap64 (s + x) + y)
  = (2 ^ 64 <=? s + (x + y)).
Proof.
  intros Hs Hx Hy. destruct (Z.leb_spec (2 ^ 64) (s + x)) as [H | H].
  - symmetry. apply Z.leb_le. lia.
  - rewrite wrap64_small by lia. cbn [orb]. f_equal. lia.
Qed.

Lemma chunk_split (x0 x1 x2 x3 x4 x5 x6 x7 : byte) :
  Z.land (le_combine [x0; x1; x2; x3; x4; x5; x6; x7]) 0xffffffff
  = le_combine [x0; x1; x2; x3]
  /\ Z.shiftr (le_combine [x0; x1; x2; x3; x4; x5; x6; x7]) 32
     = le_combine [x4; x5; x6; x7].
Proof.
  pose proof (le_combine_word [x0; x1; x2; x3] 4 (le_n _)) as Hlo.
  assert (E : le_combine [x0; x1; x2; x3; x4; x5; x6; x7]
              = le_combine [x0; x1; x2; x3]
                + le_combine [x4; x5; x6; x7] * 2 ^ 32)
    by (cbn [le_combine]; lia).
  rewrite E. change 0xffffffff with (Z.ones 32).
  rewrite Z.land_ones, Z.shiftr_div_pow2 by lia.
  change (8 * Z.of_nat 4) with 32 in Hlo.
  split.
  - rewrite Z.mod_add by lia. apply Z.mod_small. lia.
  - rewrite Z.div_add by lia. rewrite Z.div_small by lia. lia.
Qed.

Lemma lane_nonneg (off q : nat) : forall b, 0 <= lane off q b.
Proof.
  induction q as [| q IH]; intros b; cbn [lane]; [lia |].
  pose proof (le_combine_range (firstn 4 (skipn off b))).
  specialize (IH (skipn 8 b)). lia.
Qed.

Lemma lane_bound (off q : nat) :
  forall b, lane off q b <= Z.of_nat q * (2 ^ 32 - 1).
Proof.
  induction q as [| q IH]; intros b; cbn [lane]; [lia |].
  assert (H : 0 <= le_combine (firstn 4 (skipn off b)) <= 2 ^ (8 * Z.of_nat 4) - 1)
    by (apply le_combine_word, firstn_le_length).
  change (8 * Z.of_nat 4) with 32 in H.
  specialize (IH (skipn 8 b)). lia.
Qed.

Lemma lanes_loop_spec (m : mem) (q : nat) :
  forall fuel r b,
    holds m (cur r) b -> len r = Z.of_nat (length b) ->
    (8 * q <= length b < 8 * q + 8)%nat -> (q < fuel)%nat ->
    0 <= sum r < 2 ^ 64 -> 0 <= sum1 r < 2 ^ 64 ->
    while fuel lanes_cond (lanes_body m) r = Done (after_lanes q b r).
Proof.
  induction q as [| q IH]; intros fuel r b Hm Hlen Hq Hf Hs Hs1;
    (destruct fuel as [| fuel]; [lia |]); cbn [while]; unfold lanes_cond.
  - replace (8 <=? len r) with false by (symmetry; apply Z.leb_gt; lia).
    f_equal. unfold after_lanes. cbn [lane].
    rewrite !Z.add_0_r, !wrap64_small by lia.
    replace (2 ^ 64 <=? sum r) with false by (symmetry; apply Z.leb_gt; lia).
    replace (2 ^ 64 <=? sum1 r) with false by (symmetry; apply Z.leb_gt; lia).
    destruct r as [s s1 c l o]; cbn [sum sum1 cur len ovf].
    rewrite !orb_false_r. f_equal; lia.
  - replace (8 <=? len r) with true by (symmetry; apply Z.leb_le; lia).
    destruct b as [| x0 [| x1 [| x2 [| x3 [| x4 [| x5 [| x6 [| x7 b]]]]]]]];
      cbn [length] in Hq, Hlen; try lia.
    unfold lanes_body, load64.
    rewrite (holds_load m 8 _ _ Hm) by (cbn [length]; lia).
    cbn [bind firstn].
    destruct (chunk_split x0 x1 x2 x3 x4 x5 x6 x7) as [Hlo Hhi].
    rewrite Hlo, Hhi.
    pose proof (le_combine_word [x0; x1; x2; x3] 4 (le_n _)) as Blo.
    pose proof (le_combine_word [x4; x5; x6; x7] 4 (le_n _)) as Bhi.
    change (8 * Z.of_nat 4) with 32 in Blo, Bhi.
    pose proof (lane_nonneg 0 q b) as N0.
    pose proof (lane_nonneg 4 q b) as N4.
    rewrite (IH fuel _ b); cbn [advance add_sum add_sum1 sum sum1 cur len ovf].
    + f_equal. unfold after_lanes.
      cbn [lane skipn firstn advance add_sum add_sum1 sum sum1 cur len ovf].
      rewrite !wrap64_add_l.
      rewrite <- (carry_split (sum r) (le_combine [x0; x1; x2; x3]) (lane 0 q b))
        by lia.
      rewrite <- (carry_split (sum1 r) (le_combine [x4; x5; x6; x7]) (lane 4 q b))
        by lia.
      rewrite !Z.add_assoc.
      f_equal; try lia.
      destruct (ovf r), (2 ^ 64 <=? sum r + le_combine [x0; x1; x2; x3]),
        (2 ^ 64 <=? sum1 r + le_combine [x4; x5; x6; x7]),
        (2 ^ 64 <=? wrap64 (sum r + le_combine [x0; x1; x2; x3]) + lane 0 q b);
        reflexivity.
    + apply (holds_skipn m 8 _ _ Hm).
    + lia.
    + lia.
    + lia.
    + apply wrap64_range.
    + apply wrap64_range.
Qed.

(** ** The tail passes *)

Lemma le_combine_pair (x y : byte) :
  le_combine [x; y] = byteZ x + 2 ^ 8 * byteZ y.
Proof. cbn [le_combine]. lia. Qed.

Lemma tail_spec (m : mem) (t : list byte) :
  forall fuel r,
    holds m (cur r) t -> len r = Z.of_nat (length t) ->
    (length t < 2 * fuel)%nat -> 0 <= sum r < 2 ^ 64 ->
    (r' <- while fuel tail16_cond (tail16_body m) r ;; tail8 m r')
    = Done (after_tail t r).
Proof.
  induction t as [| x | x y t IH] using list_pair_ind;
    intros fuel r Hm Hlen Hf Hs;
    (destruct fuel as [| fuel]; [cbn [length] in Hf; lia |]);
    cbn [while]; unfold tail16_cond; cbn [length] in Hlen.
  - replace (2 <=? len r) with false by (symmetry; apply Z.leb_gt; lia).
    cbn [bind]. unfold tail8.
    replace (len r =? 1) with false by (symmetry; apply Z.eqb_neq; lia).
    f_equal. unfold after_tail. cbn [words16 total fold_right length].
    rewrite Z.add_0_r, wrap64_small by lia.
    replace (2 ^ 64 <=? sum r) with false by (symmetry; apply Z.leb_gt; lia).
    destruct r as [s s1 c l o]; cbn [sum sum1 cur len ovf].
    change (Z.of_nat 0 / 2) with 0.
    rewrite orb_false_r. f_equal; lia.
  - replace (2 <=? len r) with false by (symmetry; apply Z.leb_gt; lia).
    cbn [bind]. unfold tail8.
    replace (len r =? 1) with true by (symmetry; apply Z.eqb_eq; lia).
    destruct Hm as [Hx _]. unfold load8. rewrite Hx. cbn [bind].
    f_equal. unfold after_tail, add_sum.
    cbn [words16 total fold_right length]. rewrite Z.add_0_r.
    change (Z.of_nat 1 / 2) with 0.
    f_equal; lia.
  - replace (2 <=? len r) with true by (symmetry; apply Z.leb_le; lia).
    unfold tail16_body at 1, load16.
    rewrite (holds_load m 2 _ _ Hm) by (cbn [length]; lia).
    cbn [bind firstn]. rewrite le_combine_pair.
    pose proof (byteZ_range x) as Bx. pose proof (byteZ_range y) as By.
    pose proof (total_words16_range t) as Bt.
    rewrite IH; cbn [advance add_sum sum sum1 cur len ovf].
    + f_equal. unfold after_tail.
      cbn [words16 total fold_right length advance add_sum sum sum1 cur len ovf].
      fold (total (words16 t)).
      rewrite wrap64_add_l.
      rewrite <- (carry_split (sum r) (byteZ x + 2 ^ 8 * byteZ y) (total (words16 t)))
        by lia.
      rewrite !Z.add_assoc, orb_assoc.
      assert (E : Z.of_nat (S (S (length t))) / 2 = Z.of_nat (length t) / 2 + 1).
      { replace (Z.of_nat (S (S (length t)))) with (Z.of_nat (length t) + 1 * 2) by lia.
        apply Z.div_add. lia. }
      rewrite E. f_equal; lia.
    + apply (holds_skipn m 2 _ _ Hm).
    + lia.
    + cbn [length] in Hf. lia.
    + apply wrap64_range.
Qed.

(** ** The accumulation as a whole *)

Lemma chunks_bounds (b : list byte) :
  (8 * chunks b <= length b < 8 * chunks b + 8)%nat.
Proof.
  unfold chunks.
  pose proof (Nat.div_mod_eq (length b) 8).
  pose proof (Nat.mod_upper_bound (length b) 8).
  lia.
Qed.

Lemma tail_short (b : list byte) : (length (skipn (8 * chunks b) b) < 8)%nat.
Proof.
  rewrite length_skipn. pose proof (chunks_bounds b). lia.
Qed.

Lemma accumulate_spec (m : mem) (b : list byte) :
  holds m 0 b ->
  exists r, accumulate m (Z.of_nat (length b)) = Done r
    /\ sum r = wrap64 (ideal_presum b)
    /\ ovf r = overflowed b.
Proof.
  intros Hm. pose proof (chunks_bounds b) as Hq.
  pose proof (tail_short b) as Ht.
  unfold accumulate, lanes.
  rewrite (lanes_loop_spec m (chunks b) _ _ b); cbn [init sum sum1 cur len];
    try assumption; try reflexivity; try lia;
    [| unfold fuel_for; lia].
  cbn [bind].
  rewrite (tail_spec m (skipn (8 * chunks b) b)).
  - eexists. split; [reflexivity |].
    unfold after_tail, add_sum, after_lanes, init, ideal_presum, overflowed.
    cbn [sum sum1 cur len ovf]. cbn [orb]. rewrite !Z.add_0_l.
    split; [| reflexivity].
    rewrite (wrap64_add_l (lane 0 (chunks b) b)), wrap64_add_r.
    apply wrap64_add_l.
  - cbn [add_sum after_lanes init cur].
    replace (0 + 8 * Z.of_nat (chunks b)) with (0 + Z.of_nat (8 * chunks b)) by lia.
    now apply holds_skipn.
  - cbn [add_sum after_lanes init len]. rewrite length_skipn. lia.
  - unfold fuel_for. lia.
  - cbn [add_sum sum]. apply wrap64_range.
Qed.

(** Up to 2^31 chunks, nothing wraps. *)
Lemma within_2_31 (b : list byte) :
  Z.of_nat (chunks b) <= 2 ^ 31 ->
  0 <= ideal_presum b < 2 ^ 64 /\ overflowed b = false.
Proof.
  intros Hq. unfold ideal_presum, overflowed.
  pose proof (lane_nonneg 0 (chunks b) b) as N0.
  pose proof (lane_nonneg 4 (chunks b) b) as N4.
  pose proof (lane_bound 0 (chunks b) b) as B0.
  pose proof (lane_bound 4 (chunks b) b) as B4.
  pose proof (total_words16_range (skipn (8 * chunks b) b)) as Bt.
  pose proof (tail_short b) as Ht.
  cbv zeta.
  rewrite !wrap64_small by lia.
  split; [lia |].
  repeat (apply orb_false_intro); apply Z.leb_gt; lia.
Qed.

(** ** The accumulated value and the 16-bit words *)

Lemma norm_congr (x y K : Z) :
  0 <= K <= y -> x = y + 65535 * K -> norm x = norm y.
Proof.
  intros HK E. unfold norm.
  destruct (Z.eqb_spec y 0) as [Ey | Ny].
  - replace x with 0 by lia. reflexivity.
  - destruct (Z.eqb_spec x 0) as [Ex | _]; [lia |].
    f_equal. replace (x - 1) with (y - 1 + K * 65535) by lia.
    apply Z.mod_add. lia.
Qed.

Lemma lanes_words (q : nat) :
  forall b, (8 * q <= length b)%nat ->
    exists K, 0 <= K <= total (words16 b)
      /\ lane 0 q b + lane 4 q b + total (words16 (skipn (8 * q) b))
         = total (words16 b) + 65535 * K.
Proof.
  induction q as [| q IH]; intros b Hq.
  - exists 0. change (8 * 0)%nat with 0%nat. cbn [lane skipn].
    pose proof (total_words16_range b). lia.
  - destruct b as [| x0 [| x1 [| x2 [| x3 [| x4 [| x5 [| x6 [| x7 b]]]]]]]];
      cbn [length] in Hq; try lia.
    destruct (IH b) as (K & HK & E); [lia |].
    replace (8 * S q)%nat with (8 + 8 * q)%nat by lia.
    cbn [lane skipn firstn Nat.add le_combine words16 total fold_right].
    fold (total (words16 b)). fold (total (words16 (skipn (8 * q) b))).
    pose proof (byteZ_range x0). pose proof (byteZ_range x1).
    pose proof (byteZ_range x2). pose proof (byteZ_range x3).
    pose proof (byteZ_range x4). pose proof (byteZ_range x5).
    pose proof (byteZ_range x6). pose proof (byteZ_range x7).
    exists (K + (byteZ x2 + 2 ^ 8 * byteZ x3) + (byteZ x6 + 2 ^ 8 * byteZ x7)).
    split; lia.
Qed.

Lemma norm_ideal_presum (b : list byte) :
  norm (ideal_presum b) = norm (total (words16 b)).
Proof.
  destruct (lanes_words (chunks b) b) as (K & HK & E).
  - apply chunks_bounds.
  - unfold ideal_presum. now apply (norm_congr _ _ K).
Qed.

(** The routine on any readable buffer, wrap-around included: the fold
    loop returns, with [sum] the canonical representative of the wrapped
    accumulation, and adds no overflow of its own. *)
Lemma digest_state_general (m : mem) (b : list byte) :
  holds m 0 b ->
  exists r, digest_state m (Z.of_nat (length b)) = Done r
    /\ sum r = norm (wrap64 (ideal_presum b)) /\ ovf r = overflowed b.
Proof.
  intros Hm.
  destruct (accumulate_spec m b Hm) as (r & Hr & Hs & Ho).
  unfold digest_state. rewrite Hr. cbn [bind].
  rewrite fold_settles_64;
    [| apply fuel_for_ge | rewrite Hs; apply wrap64_range].
  eexists. split; [reflexivity |].
  cbn [with_sum sum ovf]. now rewrite Hs, Ho.
Qed.

Lemma digest_general (m : mem) (b : list byte) :
  holds m 0 b ->
  digest_32_le m (Z.of_nat (length b))
  = Done (65535 - norm (wrap64 (ideal_presum b))).
Proof.
  intros Hm.
  destruct (digest_state_general m b Hm) as (r & Hr & Hs & _).
  unfold digest_32_le. rewrite Hr. cbn [bind].
  rewrite result_small; rewrite Hs; [reflexivity | apply norm_range].
Qed.

(** The routine, on every buffer of at most 2^31 chunks. *)
Lemma digest_state_spec (m : mem) (b : list byte) :
  holds m 0 b -> Z.of_nat (chunks b) <= 2 ^ 31 ->
  exists r, digest_state m (Z.of_nat (length b)) = Done r
    /\ sum r = norm (total (words16 b)) /\ ovf r = false.
Proof.
  intros Hm Hq.
  destruct (digest_state_general m b Hm) as (r & Hr & Hs & Ho).
  destruct (within_2_31 b Hq) as [Hi Hf].
  exists r. split; [assumption |].
  rewrite Hs, Ho, wrap64_small by assumption.
  split; [apply norm_ideal_presum | assumption].
Qed.

Lemma digest_spec (m : mem) (b : list byte) :
  holds m 0 b -> Z.of_nat (chunks b) <= 2 ^ 31 ->
  digest_32_le m (Z.of_nat (length b))
  = Done (65535 - norm (total (words16 b))).
Proof.
  intros Hm Hq.
  destruct (digest_state_spec m b Hm Hq) as (r & Hr & Hs & _).
  unfold digest_32_le. rewrite Hr. cbn [bind].
  rewrite result_small; rewrite Hs; [reflexivity | apply norm_range].
Qed.

(** ** The specification's one's-complement sum *)

Lemma land_lnot_16 (s : Z) :
  0 <= s < 65536 -> Z.land (Z.lnot s) 0xFFFF = 65535 - s.
Proof.
  intros H. change 0xFFFF with (Z.ones 16).
  rewrite Z.land_ones by lia. change (Z.ones 16) with 65535. unfold Z.lnot.
  replace (Z.pred (- s)) with (65535 - s + (-1) * 2 ^ 16) by lia.
  rewrite Z.mod_add by lia. apply Z.mod_small. lia.
Qed.

Lemma norm_add_l (x y : Z) : 0 <= x -> 0 <= y -> norm (norm x + y) = norm (x + y).
Proof.
  intros Hx Hy. unfold norm at 2.
  destruct (Z.eqb_spec x 0) as [E | N]; [now subst |].
  assert (Hm : 0 <= (x - 1) mod 65535 < 65535) by (apply Z.mod_pos_bound; lia).
  unfold norm.
  destruct (Z.eqb_spec ((x - 1) mod 65535 + 1 + y) 0) as [E | _]; [lia |].
  destruct (Z.eqb_spec (x + y) 0) as [E | _]; [lia |].
  f_equal.
  replace ((x - 1) mod 65535 + 1 + y - 1) with ((x - 1) mod 65535 + y) by lia.
  rewrite Zplus_mod_idemp_l. f_equal. lia.
Qed.

Lemma oc_add_norm (a w : Z) :
  0 <= a < 65536 -> 0 <= w < 65536 -> oc_add a w = norm (a + w).
Proof.
  intros Ha Hw. unfold oc_add. fold (fold_step (a + w)).
  destruct (Z_lt_dec (a + w) 65536) as [Hlt | Hge].
  - rewrite fold_step_arith, Z.mod_small, Z.div_small, norm_small; lia.
  - destruct (fold_step_facts (a + w)) as (Hpos & _ & Hn); [lia |].
    rewrite <- Hn. symmetry. apply norm_small.
    rewrite fold_step_arith in *. Z.div_mod_to_equations. lia.
Qed.

Lemma fold_oc_add (b : list byte) :
  forall a, 0 <= a < 65536 ->
    fold_left oc_add (words16 b) a = norm (a + total (words16 b)).
Proof.
  induction b as [| x | x y b IH] using list_pair_ind; intros a Ha;
    cbn [words16 fold_left total fold_right].
  - rewrite Z.add_0_r. symmetry. now apply norm_small.
  - rewrite Z.add_0_r. apply oc_add_norm; [lia |].
    pose proof (byteZ_range x). lia.
  - fold (total (words16 b)).
    pose proof (byteZ_range x) as Bx. pose proof (byteZ_range y) as By.
    pose proof (total_words16_range b) as Bt.
    rewrite oc_add_norm by lia.
    rewrite IH by apply norm_range.
    rewrite norm_add_l by lia. f_equal. lia.
Qed.

Lemma oc_sum_norm (b : list byte) : oc_sum b = norm (total (words16 b)).
Proof. unfold oc_sum. now rewrite fold_oc_add by lia. Qed.

Lemma chunks_of_length (b : list byte) :
  Z.of_nat (length b) < 2 ^ 34 + 8 -> Z.of_nat (chunks b) <= 2 ^ 31.
Proof. intros H. pose proof (chunks_bounds b). lia. Qed.

(** C1, as amended: for every buffer [b] of length [len] below 2^34 + 8
    bytes (at most 2^31 eight-byte chunks), [digest(b, len)] equals
    [(~S) & 0xFFFF], where [S] is the end-around-carry one's-complement sum
    of the 16-bit little-endian words of [b], an odd final byte being
    zero-padded to a word. *)
Theorem digest_is_complement_of_oc_sum (b : list byte) :
  Z.of_nat (length b) < 2 ^ 34 + 8 ->
  digest_32_le (buf b) (Z.of_nat (length b))
  = Done (Z.land (Z.lnot (oc_sum b)) 0xFFFF).
Proof.
  intros H.
  rewrite (digest_spec (buf b) b (holds_buf b) (chunks_of_length b H)).
  rewrite oc_sum_norm, land_lnot_16 by apply norm_range.
  reflexivity.
Qed.

Lemma digest_is_complement_of_oc_sum_witness :
  Z.of_nat (length [x01; x02; xff]) < 2 ^ 34 + 8
  /\ digest_32_le (buf [x01; x02; xff]) (Z.of_nat (length [x01; x02; xff]))
     = Done (Z.land (Z.lnot (oc_sum [x01; x02; xff])) 0xFFFF).
Proof.
  split; [simpl; lia |].
  apply (digest_is_complement_of_oc_sum [x01; x02; xff]). simpl; lia.
Defined.

(** C2, as the claim states it, fails: on the eight bytes 00 01 .. 07 the
    routine does not return 0xFFF2. *)
Lemma digest_eight_bytes_not_FFF2 :
  digest_32_le (buf [x00; x01; x02; x03; x04; x05; x06; x07]) 8
  <> Done 0xFFF2.
Proof. vm_compute. discriminate. Qed.

(** C2, as amended: on the eight bytes 00 01 .. 07 the lane sums are
    0x03020100 and 0x07060504, their combination is 0x0A080604, a single
    fold step gives 0x100C, which is below 2^16 and ends the loop, and the
    routine returns the complement 0xEFF3. *)
Theorem digest_eight_bytes :
  let b := [x00; x01; x02; x03; x04; x05; x06; x07] in
  lanes (buf b) 8
  = Done {| sum := 0x03020100; sum1 := 0x07060504; cur := 8; len := 0;
            ovf := false |}
  /\ presum (buf b) 8 = Done 0x0A080604
  /\ fold_step 0x0A080604 = 0x100C
  /\ Z.shiftr 0x100C 16 = 0
  /\ digest_32_le (buf b) 8 = Done 0xEFF3.
Proof. vm_compute. repeat split; reflexivity. Qed.

(** C4: for every memory, readable or not, [digest(data, 0)] returns
    0xFFFF: the loops are skipped, the accumulator stays 0, the fold does
    nothing and the complement of zero is returned. *)
Theorem digest_empty (data : mem) :
  accumulate data 0 = Done (init 0)
  /\ fold_loop (fuel_for 0) (init 0) = Done (init 0)
  /\ digest_32_le data 0 = Done 0xFFFF.
Proof. repeat split; reflexivity. Qed.

(** ** Two bytes *)

Lemma lor_shiftl_8 (a b : Z) :
  0 <= a < 256 -> 0 <= b -> Z.lor (Z.shiftl b 8) a = a + 2 ^ 8 * b.
Proof.
  intros Ha Hb.
  assert (Hland : Z.land (Z.shiftl b 8) a = 0).
  { assert (Ea : a = Z.land (Z.ones 8) a)
      by (rewrite Z.land_comm, Z.land_ones, Z.mod_small; lia).
    rewrite Ea, Z.land_assoc, Z.land_ones, Z.shiftl_mul_pow2 by lia.
    rewrite Z.mod_mul by lia. apply Z.land_0_l. }
  rewrite <- Z.lxor_lor by assumption.
  rewrite <- Z.add_nocarry_lxor by assumption.
  rewrite Z.shiftl_mul_pow2 by lia. lia.
Qed.

(** C7: for every pair of bytes [a], [b], [digest([a, b], 2)] equals
    [~((b << 8) | a) & 0xFFFF]: the buffer is read as one little-endian
    16-bit word whose least significant byte is [a]. *)
Theorem digest_two_bytes (a b : byte) :
  digest_32_le (buf [a; b]) 2
  = Done (Z.land (Z.lnot (Z.lor (Z.shiftl (byteZ b) 8) (byteZ a))) 0xFFFF).
Proof.
  pose proof (byteZ_range a) as Ba. pose proof (byteZ_range b) as Bb.
  change 2 with (Z.of_nat (length [a; b])) at 1.
  rewrite (digest_spec (buf [a; b]) [a; b] (holds_buf _)) by (cbn; lia).
  cbn [words16 total fold_right]. rewrite Z.add_0_r.
  rewrite lor_shiftl_8, norm_small, land_lnot_16 by lia.
  reflexivity.
Qed.

(** ** Buffers of 0xFF bytes *)

Lemma lane_all_ones (off q : nat) :
  off = 0%nat \/ off = 4%nat ->
  forall n, (8 * q <= n)%nat ->
    lane off q (repeat xff n) = Z.of_nat q * (2 ^ 32 - 1).
Proof.
  intros Hoff. induction q as [| q IH]; intros n Hn; [reflexivity |].
  replace n with (8 + (n - 8))%nat by lia.
  cbn [lane]. destruct Hoff; subst off; cbn [Nat.add repeat skipn firstn];
    rewrite IH by lia;
    change (le_combine [xff; xff; xff; xff]) with (2 ^ 32 - 1); lia.
Qed.

Lemma total_words_all_ones (k : nat) :
  total (words16 (repeat xff (2 * k))) = 65535 * Z.of_nat k.
Proof.
  induction k as [| k IH]; [reflexivity |].
  replace (2 * S k)%nat with (2 + 2 * k)%nat by lia.
  cbn [Nat.add repeat words16 total fold_right].
  fold (total (words16 (repeat xff (2 * k)))). rewrite IH.
  change (byteZ xff) with 255. lia.
Qed.

Lemma chunks_repeat (q t : nat) :
  (t < 8)%nat -> chunks (repeat xff (8 * q + t)) = q.
Proof.
  intros Ht. unfold chunks. rewrite repeat_length.
  symmetry. now apply (Nat.div_unique _ 8 q t).
Qed.

Lemma skipn_repeat_rest (x : byte) (n t : nat) :
  skipn n (repeat x (n + t)) = repeat x t.
Proof. induction n as [| n IH]; [reflexivity | exact IH]. Qed.

Lemma norm_multiple (k : Z) : 0 < k -> norm (65535 * k) = 65535.
Proof.
  intros Hk. unfold norm.
  destruct (Z.eqb_spec (65535 * k) 0) as [E | _]; [lia |].
  replace (65535 * k - 1) with (65534 + (k - 1) * 65535) by lia.
  rewrite Z.mod_add by lia. reflexivity.
Qed.

(** The final state on [8 * q + t] bytes of 0xFF, whatever the size. *)
Lemma digest_state_all_ones (q t : nat) :
  (t < 8)%nat ->
  let L := Z.of_nat q * (2 ^ 32 - 1) in
  let T := total (words16 (repeat xff t)) in
  exists r,
    digest_state (buf (repeat xff (8 * q + t))) (Z.of_nat (8 * q + t)) = Done r
    /\ sum r = norm (wrap64 (L + L + T))
    /\ ovf r = (2 ^ 64 <=? L) || (2 ^ 64 <=? L)
               || (2 ^ 64 <=? wrap64 L + wrap64 L)
               || (2 ^ 64 <=? wrap64 (wrap64 L + wrap64 L) + T).
Proof.
  intros Ht L T.
  destruct (digest_state_general _ _ (holds_buf (repeat xff (8 * q + t))))
    as (r & Hr & Hs & Ho).
  rewrite repeat_length in Hr.
  exists r. split; [assumption |].
  unfold ideal_presum in Hs. unfold overflowed in Ho.
  rewrite chunks_repeat in Hs, Ho by assumption.
  rewrite skipn_repeat_rest in Hs, Ho.
  rewrite !lane_all_ones in Hs, Ho by (auto; lia).
  split; assumption.
Qed.

(** 2^34 + 8 bytes of 0xFF are 2^31 + 1 chunks: the combination of the two
    lanes wraps, and the routine returns 1. *)
Lemma to_nat_chunks (z : Z) (t : nat) :
  0 <= z -> Z.to_nat (8 * z + Z.of_nat t) = (8 * Z.to_nat z + t)%nat.
Proof. lia. Qed.

Lemma all_ones_16GiB :
  all_ones (2 ^ 34 + 8) = repeat xff (8 * Z.to_nat (2 ^ 31 + 1) + 0).
Proof.
  unfold all_ones.
  replace (2 ^ 34 + 8) with (8 * (2 ^ 31 + 1) + Z.of_nat 0) by reflexivity.
  now rewrite to_nat_chunks by lia.
Qed.

Lemma length_all_ones (n : Z) : 0 <= n -> Z.of_nat (length (all_ones n)) = n.
Proof. intros H. unfold all_ones. rewrite repeat_length. lia. Qed.

Lemma digest_state_16GiB :
  exists r,
    digest_state (buf (all_ones (2 ^ 34 + 8))) (2 ^ 34 + 8) = Done r
    /\ sum r = 0xFFFE /\ ovf r = true.
Proof.
  destruct (digest_state_all_ones (Z.to_nat (2 ^ 31 + 1)) 0) as (r & Hr & Hs & Ho);
    [lia |].
  rewrite <- all_ones_16GiB in Hr.
  replace (Z.of_nat (8 * Z.to_nat (2 ^ 31 + 1) + 0)) with (2 ^ 34 + 8) in Hr by lia.
  rewrite Z2Nat.id in Hs, Ho by lia.
  exists r. split; [assumption |]. split.
  - rewrite Hs. reflexivity.
  - rewrite Ho. reflexivity.
Qed.

Lemma digest_16GiB :
  digest_32_le (buf (all_ones (2 ^ 34 + 8))) (2 ^ 34 + 8) = Done 1.
Proof.
  destruct digest_state_16GiB as (r & Hr & Hs & _).
  unfold digest_32_le. rewrite Hr. cbn [bind].
  rewrite result_small; rewrite Hs; [reflexivity | lia].
Qed.

Lemma oc_sum_all_ones (k : nat) :
  (0 < k)%nat -> oc_sum (repeat xff (2 * k)) = 65535.
Proof.
  intros Hk. rewrite oc_sum_norm, total_words_all_ones.
  apply norm_multiple. lia.
Qed.

(** C1, as the claim states it, fails: on 2^34 + 8 bytes of 0xFF the
    combination [sum += sum1] wraps modulo 2^64 and the routine returns 1,
    while the complement of the one's-complement sum of the words is 0. *)
Lemma digest_is_not_oc_sum_at_16GiB :
  digest_32_le (buf (all_ones (2 ^ 34 + 8)))
    (Z.of_nat (length (all_ones (2 ^ 34 + 8))))
  <> Done (Z.land (Z.lnot (oc_sum (all_ones (2 ^ 34 + 8)))) 0xFFFF).
Proof.
  rewrite length_all_ones, digest_16GiB by lia.
  rewrite all_ones_16GiB.
  replace (8 * Z.to_nat (2 ^ 31 + 1) + 0)%nat
    with (2 * (4 * Z.to_nat (2 ^ 31 + 1)))%nat by lia.
  rewrite oc_sum_all_ones by lia.
  change (Z.land (Z.lnot 65535) 0xFFFF) with 0. discriminate.
Qed.

(** C6, as the claim states it, fails: n = 2^34 + 8 is even and at least 2,
    and the routine returns 1 on n bytes of 0xFF. *)
Lemma digest_all_ones_not_zero_at_16GiB :
  Z.even (2 ^ 34 + 8) = true /\ 2 <= 2 ^ 34 + 8
  /\ digest_32_le (buf (all_ones (2 ^ 34 + 8))) (2 ^ 34 + 8) <> Done 0x0000.
Proof.
  split; [reflexivity |]. split; [lia |].
  rewrite digest_16GiB. discriminate.
Qed.

(** C6, as amended: for every even [n] with 2 <= n < 2^34 + 8, the routine
    returns 0x0000 on a buffer of [n] bytes all equal to 0xFF. *)
Theorem digest_all_ones_even (n : Z) :
  2 <= n < 2 ^ 34 + 8 -> Z.even n = true ->
  digest_32_le (buf (all_ones n)) n = Done 0x0000.
Proof.
  intros Hn He.
  pose proof (length_all_ones n ltac:(lia)) as El.
  pose proof (digest_spec _ _ (holds_buf (all_ones n))) as H.
  rewrite El in H. rewrite H by (apply chunks_of_length; lia).
  apply Z.even_spec in He. destruct He as [k Ek].
  unfold all_ones.
  replace (Z.to_nat n) with (2 * Z.to_nat k)%nat by lia.
  rewrite total_words_all_ones, norm_multiple by lia.
  reflexivity.
Qed.

Lemma digest_all_ones_even_witness :
  2 <= 16 < 2 ^ 34 + 8 /\ Z.even 16 = true
  /\ digest_32_le (buf (all_ones 16)) 16 = Done 0x0000.
Proof.
  split; [lia |]. split; [reflexivity |].
  apply (digest_all_ones_even 16); [lia | reflexivity].
Defined.

(** ** Overflow *)

(** The two lanes alone stay below 2^64 up to 2^32 chunks. *)
Lemma lanes_no_overflow (b : list byte) :
  Z.of_nat (chunks b) <= 2 ^ 32 ->
  exists r, lanes (buf b) (Z.of_nat (length b)) = Done r /\ ovf r = false.
Proof.
  intros Hq. pose proof (chunks_bounds b) as Hc. unfold lanes.
  rewrite (lanes_loop_spec (buf b) (chunks b) _ _ b);
    cbn [init sum sum1 cur len]; try reflexivity; try lia;
    [| apply holds_buf | unfold fuel_for; lia].
  eexists. split; [reflexivity |].
  unfold after_lanes, init. cbn [sum sum1 ovf orb].
  pose proof (lane_bound 0 (chunks b) b). pose proof (lane_bound 4 (chunks b) b).
  apply orb_false_intro; apply Z.leb_gt; lia.
Qed.

(** C8, as the claim states it, fails: 2^34 + 8 bytes of 0xFF are
    2^31 + 1 <= 2^32 chunks, and the combination [sum += sum1] exceeds
    2^64 on them. *)
Lemma overflow_at_16GiB :
  Z.of_nat (chunks (all_ones (2 ^ 34 + 8))) <= 2 ^ 32
  /\ exists r,
       digest_state (buf (all_ones (2 ^ 34 + 8)))
         (Z.of_nat (length (all_ones (2 ^ 34 + 8)))) = Done r
       /\ ovf r = true.
Proof.
  split.
  - rewrite all_ones_16GiB, chunks_repeat by lia. lia.
  - rewrite length_all_ones by lia.
    destruct digest_state_16GiB as (r & Hr & _ & Ho).
    exists r. split; assumption.
Qed.

(** C8, as amended: with 64-bit accumulators no addition of the routine
    overflows (the lane sums, the combination [sum + sum1], the tail
    additions and the fold all stay below 2^64) for every input of up to
    2^31 eight-byte chunks, that is up to 16 GiB of data. *)
Theorem no_overflow_up_to_16GiB (b : list byte) :
  Z.of_nat (chunks b) <= 2 ^ 31 ->
  exists r, digest_state (buf b) (Z.of_nat (length b)) = Done r
    /\ ovf r = false.
Proof.
  intros Hq.
  destruct (digest_state_spec (buf b) b (holds_buf b) Hq) as (r & Hr & _ & Ho).
  exists r. split; assumption.
Qed.

Lemma no_overflow_up_to_16GiB_witness :
  Z.of_nat (chunks (all_ones 19)) <= 2 ^ 31
  /\ exists r, digest_state (buf (all_ones 19))
                 (Z.of_nat (length (all_ones 19))) = Done r
       /\ ovf r = false.
Proof.
  split; [vm_compute; discriminate |].
  apply (no_overflow_up_to_16GiB (all_ones 19)). vm_compute; discriminate.
Defined.

(** ** The byte-wise reference *)

Lemma ref_fold_norm : forall x, 0 <= x -> ref_fold x = norm x.
Proof.
  intros x. funelim (ref_fold x); intros Hx.
  - symmetry. apply norm_small. lia.
  - destruct (fold_step_facts x) as (Hpos & _ & Hn); [lia |].
    rewrite fold_step_arith in Hpos, Hn.
    rewrite <- Hn. apply H. lia.
Qed.

Lemma ref_sum_total (b : list byte) :
  forall acc, ref_sum b acc = acc + total (words16 b).
Proof.
  induction b as [| x | x y b IH] using list_pair_ind; intros acc;
    cbn [ref_sum words16 total fold_right]; try lia.
  fold (total (words16 b)).
  pose proof (byteZ_range x). pose proof (byteZ_range y).
  rewrite IH, Z.lor_comm, lor_shiftl_8 by lia. lia.
Qed.

Lemma ref_checksum_norm (b : list byte) :
  ref_checksum b = 65535 - norm (total (words16 b)).
Proof.
  unfold ref_checksum. rewrite ref_sum_total, Z.add_0_l.
  pose proof (total_words16_range b).
  rewrite ref_fold_norm by lia.
  apply land_lnot_16, norm_range.
Qed.

(** C3, as the claim states it, fails: on 2^34 + 8 bytes of 0xFF the lane
    accumulation returns 1 and the byte-wise reference returns 0. *)
Lemma lanes_differ_from_reference_at_16GiB :
  digest_32_le (buf (all_ones (2 ^ 34 + 8)))
    (Z.of_nat (length (all_ones (2 ^ 34 + 8))))
  <> Done (ref_checksum (all_ones (2 ^ 34 + 8))).
Proof.
  rewrite length_all_ones, digest_16GiB by lia.
  rewrite ref_checksum_norm, all_ones_16GiB.
  replace (8 * Z.to_nat (2 ^ 31 + 1) + 0)%nat
    with (2 * (4 * Z.to_nat (2 ^ 31 + 1)))%nat by lia.
  rewrite total_words_all_ones, norm_multiple by lia.
  discriminate.
Qed.

(** C3, as amended: for every buffer of fewer than 2^34 + 8 bytes (in
    particular every 8-byte buffer), the accumulation in two 32-bit lanes
    over little-endian 64-bit chunks, combined before the fold, produces the
    same checksum as the byte-wise reference that sums the little-endian
    16-bit words and folds. *)
Theorem lanes_refine_reference (b : list byte) :
  Z.of_nat (length b) < 2 ^ 34 + 8 ->
  digest_32_le (buf b) (Z.of_nat (length b)) = Done (ref_checksum b).
Proof.
  intros H.
  rewrite (digest_spec (buf b) b (holds_buf b) (chunks_of_length b H)).
  now rewrite ref_checksum_norm.
Qed.

Lemma lanes_refine_reference_witness :
  Z.of_nat (length [x10; x32; x54; x76; x98; xba; xdc; xfe]) < 2 ^ 34 + 8
  /\ digest_32_le (buf [x10; x32; x54; x76; x98; xba; xdc; xfe])
       (Z.of_nat (length [x10; x32; x54; x76; x98; xba; xdc; xfe]))
     = Done (ref_checksum [x10; x32; x54; x76; x98; xba; xdc; xfe]).
Proof.
  split; [simpl; lia |].
  apply (lanes_refine_reference [x10; x32; x54; x76; x98; xba; xdc; xfe]).
  simpl; lia.
Defined.

(** ** Splitting a buffer *)

Lemma presum_general (m : mem) (b : list byte) :
  holds m 0 b ->
  presum m (Z.of_nat (length b)) = Done (wrap64 (ideal_presum b)).
Proof.
  intros Hm. destruct (accumulate_spec m b Hm) as (r & Hr & Hs & _).
  unfold presum. rewrite Hr. cbn [bind]. now rewrite Hs.
Qed.

Lemma finish_spec (z : Z) : 0 <= z < 2 ^ 64 -> finish z = Done (65535 - norm z).
Proof.
  intros Hz. unfold finish.
  rewrite fold_settles_64 by (cbn [sum]; lia).
  cbn [bind with_sum sum]. rewrite result_small; cbn [sum]; [reflexivity |].
  apply norm_range.
Qed.

Lemma ideal_presum_words (b : list byte) :
  exists K, 0 <= K <= total (words16 b)
    /\ ideal_presum b = total (words16 b) + 65535 * K.
Proof.
  destruct (lanes_words (chunks b) b) as (K & HK & E); [apply chunks_bounds |].
  now exists K.
Qed.

Lemma total_app (u v : list Z) : total (u ++ v) = total u + total v.
Proof.
  induction u as [| w u IH]; cbn [app total fold_right]; [reflexivity |].
  fold (total (u ++ v)). fold (total u). lia.
Qed.

Lemma words16_app_even (p s : list byte) :
  Nat.even (length p) = true -> words16 (p ++ s) = words16 p ++ words16 s.
Proof.
  induction p as [| x | x y p IH] using list_pair_ind; intros He.
  - reflexivity.
  - discriminate He.
  - cbn [app words16]. f_equal. apply IH. exact He.
Qed.

(** C5, as amended: for every buffer of fewer than 2^34 + 8 bytes split
    into an even-length prefix and a suffix, the pre-fold sums of the two
    parts add up without overflow, and folding and complementing their sum
    yields the checksum of the whole buffer. *)
Theorem split_sums_agree (p s : list byte) :
  Nat.even (length p) = true ->
  Z.of_nat (length (p ++ s)) < 2 ^ 34 + 8 ->
  exists x y,
    presum (buf p) (Z.of_nat (length p)) = Done x
    /\ presum (buf s) (Z.of_nat (length s)) = Done y
    /\ x + y < 2 ^ 64
    /\ finish (x + y) = digest_32_le (buf (p ++ s)) (Z.of_nat (length (p ++ s))).
Proof.
  intros He Hlen.
  pose proof (chunks_bounds p) as Cp. pose proof (chunks_bounds s) as Cs.
  pose proof (chunks_bounds (p ++ s)) as Cw.
  rewrite length_app in Hlen, Cw.
  assert (Hp : Z.of_nat (chunks p) <= 2 ^ 31) by lia.
  assert (Hs : Z.of_nat (chunks s) <= 2 ^ 31) by lia.
  assert (Hw : Z.of_nat (chunks (p ++ s)) <= 2 ^ 31) by lia.
  destruct (within_2_31 p Hp) as [Rp _].
  destruct (within_2_31 s Hs) as [Rs _].
  exists (ideal_presum p), (ideal_presum s).
  rewrite !presum_general by apply holds_buf.
  rewrite !wrap64_small by assumption.
  split; [reflexivity |]. split; [reflexivity |].
  assert (Hsum : ideal_presum p + ideal_presum s < 2 ^ 64).
  { unfold ideal_presum.
    pose proof (lane_bound 0 (chunks p) p). pose proof (lane_bound 4 (chunks p) p).
    pose proof (lane_bound 0 (chunks s) s). pose proof (lane_bound 4 (chunks s) s).
    pose proof (total_words16_range (skipn (8 * chunks p) p)).
    pose proof (total_words16_range (skipn (8 * chunks s) s)).
    pose proof (tail_short p). pose proof (tail_short s). lia. }
  split; [assumption |].
  rewrite finish_spec by lia.
  rewrite (digest_spec (buf (p ++ s)) (p ++ s) (holds_buf _) Hw).
  rewrite words16_app_even, total_app by assumption.
  destruct (ideal_presum_words p) as (Kp & HKp & Ep).
  destruct (ideal_presum_words s) as (Ks & HKs & Es).
  f_equal. f_equal. apply (norm_congr _ _ (Kp + Ks)); lia.
Qed.

Lemma split_sums_agree_witness :
  Nat.even (length [x01; x02]) = true
  /\ Z.of_nat (length ([x01; x02] ++ [x03; x04; x05])) < 2 ^ 34 + 8
  /\ exists x y,
       presum (buf [x01; x02]) (Z.of_nat (length [x01; x02])) = Done x
       /\ presum (buf [x03; x04; x05]) (Z.of_nat (length [x03; x04; x05]))
          = Done y
       /\ x + y < 2 ^ 64
       /\ finish (x + y)
          = digest_32_le (buf ([x01; x02] ++ [x03; x04; x05]))
              (Z.of_nat (length ([x01; x02] ++ [x03; x04; x05]))).
Proof.
  split; [reflexivity |]. split; [simpl; lia |].
  apply (split_sums_agree [x01; x02] [x03; x04; x05]);
    [reflexivity | simpl; lia].
Defined.

Lemma ideal_presum_all_ones (q t : nat) :
  (t < 8)%nat ->
  ideal_presum (repeat xff (8 * q + t))
  = 2 * (Z.of_nat q * (2 ^ 32 - 1)) + total (words16 (repeat xff t)).
Proof.
  intros Ht. unfold ideal_presum.
  rewrite chunks_repeat by assumption.
  rewrite skipn_repeat_rest, !lane_all_ones by (auto; lia).
  lia.
Qed.

Lemma all_ones_app (u v : Z) :
  0 <= u -> 0 <= v -> all_ones u ++ all_ones v = all_ones (u + v).
Proof.
  intros Hu Hv. unfold all_ones. rewrite <- repeat_app.
  now rewrite Z2Nat.inj_add.
Qed.

Lemma presum_all_ones_16GiB_less_2 :
  presum (buf (all_ones (2 ^ 34 + 6)))
    (Z.of_nat (length (all_ones (2 ^ 34 + 6))))
  = Done (2 ^ 64 - 2 ^ 32 + 0x2FFFD).
Proof.
  rewrite presum_general by apply holds_buf.
  unfold all_ones.
  replace (2 ^ 34 + 6) with (8 * 2 ^ 31 + Z.of_nat 6) by reflexivity.
  rewrite to_nat_chunks, ideal_presum_all_ones, Z2Nat.id by lia.
  reflexivity.
Qed.

(** C5, as the claim states it, fails: 2^34 + 8 bytes of 0xFF split after
    the first two bytes.  The pre-fold sums of the two parts add up to a
    value that folds to 0xFFFF, so the combination gives 0, while the
    routine returns 1 on the whole buffer. *)
Lemma split_sums_disagree_at_16GiB :
  Nat.even (length (all_ones 2)) = true
  /\ ~ exists x y,
         presum (buf (all_ones 2)) (Z.of_nat (length (all_ones 2))) = Done x
         /\ presum (buf (all_ones (2 ^ 34 + 6)))
              (Z.of_nat (length (all_ones (2 ^ 34 + 6)))) = Done y
         /\ finish (x + y)
            = digest_32_le (buf (all_ones 2 ++ all_ones (2 ^ 34 + 6)))
                (Z.of_nat (length (all_ones 2 ++ all_ones (2 ^ 34 + 6)))).
Proof.
  split; [reflexivity |].
  intros (x & y & Hx & Hy & Hf).
  rewrite presum_all_ones_16GiB_less_2 in Hy.
  assert (Ex : presum (buf (all_ones 2)) (Z.of_nat (length (all_ones 2)))
               = Done 0xFFFF) by (vm_compute; reflexivity).
  rewrite Ex in Hx.
  injection Hx as <-. injection Hy as <-.
  rewrite all_ones_app in Hf by lia.
  replace (2 + (2 ^ 34 + 6)) with (2 ^ 34 + 8) in Hf by reflexivity.
  rewrite length_all_ones, digest_16GiB in Hf by lia.
  vm_compute in Hf. discriminate Hf.
Qed.

(** ** Rules for loops *)

Section WhileRules.
Variable cond : regs -> bool.
Variable body : regs -> outcome regs.
Variable I : regs -> Prop.
Hypothesis step : forall r r', I r -> cond r = true -> body r = Done r' -> I r'.

Lemma while_invariant (fuel : nat) :
  forall r r', I r -> while fuel cond body r = Done r' -> I r'.
Proof.
  induction fuel as [| fuel IH]; intros r r' Hr; cbn [while]; [discriminate |].
  destruct (cond r) eqn:Hc.
  - destruct (body r) as [r1 | |] eqn:Hb; cbn [bind]; try discriminate.
    apply IH. now apply (step r).
  - intros E. injection E as <-. exact Hr.
Qed.

(** A loop whose body decreases a measure returns or faults within a
    budget above the measure. *)
Variable mu : regs -> nat.
Hypothesis decreases :
  forall r r', cond r = true -> body r = Done r' -> (mu r' < mu r)%nat.
Hypothesis body_returns : forall r, body r <> Timeout.

Lemma while_no_timeout (fuel : nat) :
  forall r, (mu r < fuel)%nat -> while fuel cond body r <> Timeout.
Proof.
  induction fuel as [| fuel IH]; intros r Hf; [lia |]. cbn [while].
  destruct (cond r) eqn:Hc; [| discriminate].
  destruct (body r) as [r1 | |] eqn:Hb; cbn [bind].
  - apply IH. specialize (decreases r r1 Hc Hb). lia.
  - discriminate.
  - now apply body_returns in Hb.
Qed.

(** Two bodies that agree on the states the loop can reach give the same
    run. *)
Variable body' : regs -> outcome regs.
Hypothesis same : forall r, I r -> cond r = true -> body r = body' r.

Lemma while_agree (fuel : nat) :
  forall r, I r -> while fuel cond body r = while fuel cond body' r.
Proof.
  induction fuel as [| fuel IH]; intros r Hr; cbn [while]; [reflexivity |].
  destruct (cond r) eqn:Hc; [| reflexivity].
  rewrite <- (same r Hr Hc).
  destruct (body r) as [r1 | |] eqn:Hb; cbn [bind]; try reflexivity.
  apply IH. now apply (step r).
Qed.
End WhileRules.

(** ** The routine reads only the first [n] bytes *)

Lemma load_le_agree (m1 m2 : mem) (k : nat) :
  forall p,
    (forall i, p <= i < p + Z.of_nat k -> m1 i = m2 i) ->
    load_le k m1 p = load_le k m2 p.
Proof.
  induction k as [| k IH]; intros p H; [reflexivity |].
  cbn [load_le]. unfold load8. rewrite (H p) by lia.
  rewrite (IH (p + 1)); [reflexivity |].
  intros i Hi. apply H. lia.
Qed.

Lemma lanes_body_bounds (m : mem) (n : Z) (r r' : regs) :
  in_bounds n r -> lanes_cond r = true -> lanes_body m r = Done r' ->
  in_bounds n r'.
Proof.
  intros [Hc Hn] _. unfold lanes_body.
  destruct (load64 m (cur r)) as [d | |]; cbn [bind]; try discriminate.
  intros E. injection E as <-. unfold in_bounds. cbn. lia.
Qed.

Lemma tail16_body_bounds (m : mem) (n : Z) (r r' : regs) :
  in_bounds n r -> tail16_cond r = true -> tail16_body m r = Done r' ->
  in_bounds n r'.
Proof.
  intros [Hc Hn] _. unfold tail16_body.
  destruct (load16 m (cur r)) as [d | |]; cbn [bind]; try discriminate.
  intros E. injection E as <-. unfold in_bounds. cbn. lia.
Qed.

Section Agreement.
Variables m1 m2 : mem.
Variable n : Z.
Hypothesis agree : forall i, 0 <= i < n -> m1 i = m2 i.

Lemma lanes_body_agree (r : regs) :
  in_bounds n r -> lanes_cond r = true -> lanes_body m1 r = lanes_body m2 r.
Proof.
  intros [Hc Hn] Hl. unfold lanes_cond in Hl. apply Z.leb_le in Hl.
  unfold lanes_body, load64. rewrite (load_le_agree m1 m2 8 (cur r)).
  - reflexivity.
  - intros i Hi. apply agree. lia.
Qed.

Lemma tail16_body_agree (r : regs) :
  in_bounds n r -> tail16_cond r = true ->
  tail16_body m1 r = tail16_body m2 r.
Proof.
  intros [Hc Hn] Hl. unfold tail16_cond in Hl. apply Z.leb_le in Hl.
  unfold tail16_body, load16. rewrite (load_le_agree m1 m2 2 (cur r)).
  - reflexivity.
  - intros i Hi. apply agree. lia.
Qed.

Lemma tail8_agree (r : regs) : in_bounds n r -> tail8 m1 r = tail8 m2 r.
Proof.
  intros [Hc Hn]. unfold tail8.
  destruct (Z.eqb_spec (len r) 1) as [E | _]; [| reflexivity].
  unfold load8. rewrite (agree (cur r)) by lia. reflexivity.
Qed.

Lemma accumulate_agree : accumulate m1 n = accumulate m2 n.
Proof.
  assert (H0 : in_bounds n (init n)) by (unfold in_bounds; cbn; lia).
  unfold accumulate, lanes.
  rewrite <- (while_agree lanes_cond (lanes_body m1) (in_bounds n)
                (lanes_body_bounds m1 n) (lanes_body m2) lanes_body_agree
                (fuel_for n) (init n) H0).
  destruct (while (fuel_for n) lanes_cond (lanes_body m1) (init n))
    as [r | |] eqn:E1; cbn [bind]; try reflexivity.
  assert (H1 : in_bounds n (add_sum (sum1 r) r)).
  { apply (while_invariant _ _ _ (lanes_body_bounds m1 n)) in E1;
      [exact E1 | exact H0]. }
  rewrite <- (while_agree tail16_cond (tail16_body m1) (in_bounds n)
                (tail16_body_bounds m1 n) (tail16_body m2) tail16_body_agree
                (fuel_for n) _ H1).
  destruct (while (fuel_for n) tail16_cond (tail16_body m1) (add_sum (sum1 r) r))
    as [r' | |] eqn:E2; cbn [bind]; try reflexivity.
  apply tail8_agree.
  apply (while_invariant _ _ _ (tail16_body_bounds m1 n)) in E2;
    [exact E2 | exact H1].
Qed.
End Agreement.

(** C9: the result of [digest(data, len)] depends only on the first [len]
    bytes: on two memories that agree at the offsets 0 .. len-1 the routine
    gives the same outcome, whatever lies at or past offset [len]. *)
Theorem digest_depends_on_prefix (m1 m2 : mem) (n : Z) :
  (forall i, 0 <= i < n -> m1 i = m2 i) ->
  digest_32_le m1 n = digest_32_le m2 n.
Proof.
  intros H. unfold digest_32_le, digest_state.
  now rewrite (accumulate_agree m1 m2 n H).
Qed.

Lemma digest_depends_on_prefix_witness :
  (forall i, 0 <= i < 3 ->
     buf [x01; x02; x03] i = buf [x01; x02; x03; xff; x07] i)
  /\ digest_32_le (buf [x01; x02; x03]) 3
     = digest_32_le (buf [x01; x02; x03; xff; x07]) 3.
Proof.
  assert (H : forall i, 0 <= i < 3 ->
                buf [x01; x02; x03] i = buf [x01; x02; x03; xff; x07] i).
  { intros i Hi. unfold buf.
    destruct (i <? 0); [reflexivity |].
    destruct (Z.to_nat i) as [| [| [| k]]] eqn:E; try reflexivity. lia. }
  split; [exact H |].
  apply (digest_depends_on_prefix _ _ 3 H).
Defined.

(** ** Termination *)

(** C10: the fold loop [sum = (sum & 0xffff) + (sum >> 16)] terminates from
    every 64-bit value of [sum]: an iteration runs only while sum >= 2^16
    and then strictly decreases [sum]; the loop returns within six tests, and
    on exit [sum] is below 2^16, so that the returned value is a 16-bit
    integer. *)
Theorem fold_loop_terminates (r : regs) :
  0 <= sum r < 2 ^ 64 ->
  ((fold_cond r = false /\ sum r < 2 ^ 16)
   \/ (fold_cond r = true /\ 2 ^ 16 <= sum r
       /\ 0 <= sum (fold_assign r) < sum r))
  /\ exists r',
       (forall fuel, (6 <= fuel)%nat -> fold_loop fuel r = Done r')
       /\ 0 <= sum r' < 2 ^ 16
       /\ fold_cond r' = false
       /\ result r' = 0xFFFF - sum r'
       /\ 0 <= result r' < 2 ^ 16.
Proof.
  intros Hs. split.
  - rewrite fold_cond_test by lia.
    destruct (Z.ltb_spec (sum r) 65536) as [Hlt | Hge]; cbn [negb].
    + left. split; [reflexivity | lia].
    + right. split; [reflexivity |]. split; [lia |].
      rewrite fold_assign_exact by lia. cbn [with_sum sum].
      destruct (fold_step_facts (sum r)); lia.
  - exists (with_sum (norm (sum r)) r).
    pose proof (norm_range (sum r)) as Hn.
    split; [intros fuel Hf; now apply fold_settles_64 |].
    cbn [with_sum sum]. split; [lia |]. split.
    + rewrite fold_cond_test by (cbn [with_sum sum]; lia).
      cbn [with_sum sum].
      replace (norm (sum r) <? 65536) with true
        by (symmetry; apply Z.ltb_lt; lia).
      reflexivity.
    + rewrite result_small by (cbn [with_sum sum]; lia).
      cbn [with_sum sum]. lia.
Qed.

Lemma fold_loop_terminates_witness :
  0 <= sum (with_sum 0xFFFFFFFFFFFFFFFF (init 0)) < 2 ^ 64
  /\ ((fold_cond (with_sum 0xFFFFFFFFFFFFFFFF (init 0)) = false
       /\ sum (with_sum 0xFFFFFFFFFFFFFFFF (init 0)) < 2 ^ 16)
      \/ (fold_cond (with_sum 0xFFFFFFFFFFFFFFFF (init 0)) = true
          /\ 2 ^ 16 <= sum (with_sum 0xFFFFFFFFFFFFFFFF (init 0))
          /\ 0 <= sum (fold_assign (with_sum 0xFFFFFFFFFFFFFFFF (init 0)))
               < sum (with_sum 0xFFFFFFFFFFFFFFFF (init 0))))
  /\ exists r',
       (forall fuel, (6 <= fuel)%nat ->
          fold_loop fuel (with_sum 0xFFFFFFFFFFFFFFFF (init 0)) = Done r')
       /\ 0 <= sum r' < 2 ^ 16
       /\ fold_cond r' = false
       /\ result r' = 0xFFFF - sum r'
       /\ 0 <= result r' < 2 ^ 16.
Proof.
  assert (H : 0 <= sum (with_sum 0xFFFFFFFFFFFFFFFF (init 0)) < 2 ^ 64)
    by (cbn; lia).
  split; [exact H |].
  apply (fold_loop_terminates (with_sum 0xFFFFFFFFFFFFFFFF (init 0)) H).
Defined.

(** The whole routine returns or faults within the budget [fuel_for]: no
    call runs out of iterations. *)
Lemma load_le_returns (m : mem) (k : nat) : forall p, load_le k m p <> Timeout.
Proof.
  induction k as [| k IH]; intros p; cbn [load_le]; [discriminate |].
  unfold load8. destruct (m p); cbn [bind]; [| discriminate].
  specialize (IH (p + 1)).
  destruct (load_le k m (p + 1)); cbn [bind]; [discriminate | discriminate |].
  now contradiction IH.
Qed.

Lemma lanes_body_steps (m : mem) (r r' : regs) :
  lanes_body m r = Done r' ->
  len r' = len r - 8 /\ sum_in_range r'.
Proof.
  unfold lanes_body.
  destruct (load64 m (cur r)) as [d | |]; cbn [bind]; try discriminate.
  intros E. injection E as <-. split; [reflexivity |].
  unfold sum_in_range. cbn. apply wrap64_range.
Qed.

Lemma tail16_body_steps (m : mem) (r r' : regs) :
  tail16_body m r = Done r' ->
  len r' = len r - 2 /\ sum_in_range r'.
Proof.
  unfold tail16_body.
  destruct (load16 m (cur r)) as [d | |]; cbn [bind]; try discriminate.
  intros E. injection E as <-. split; [reflexivity |].
  unfold sum_in_range. cbn. apply wrap64_range.
Qed.

Lemma accumulate_in_range (m : mem) (n : Z) (r : regs) :
  accumulate m n = Done r -> sum_in_range r.
Proof.
  unfold accumulate.
  destruct (lanes m n) as [r1 | |]; cbn [bind]; try discriminate.
  destruct (while (fuel_for n) tail16_cond (tail16_body m) (add_sum (sum1 r1) r1))
    as [r2 | |] eqn:E2; cbn [bind]; try discriminate.
  apply (while_invariant tail16_cond (tail16_body m) sum_in_range) in E2.
  - unfold tail8. destruct (len r2 =? 1).
    + unfold load8. destruct (m (cur r2)); cbn [bind]; try discriminate.
      intros E. injection E as <-. unfold sum_in_range. cbn. apply wrap64_range.
    + intros E. now injection E as <-.
  - intros r0 r' _ _ Hb. now apply tail16_body_steps in Hb.
  - unfold sum_in_range. cbn. apply wrap64_range.
Qed.

Lemma accumulate_returns (m : mem) (n : Z) : accumulate m n <> Timeout.
Proof.
  unfold accumulate, lanes.
  destruct (while (fuel_for n) lanes_cond (lanes_body m) (init n))
    as [r1 | |] eqn:E1; cbn [bind]; [| discriminate |].
  - assert (L1 : len r1 <= n).
    { apply (while_invariant lanes_cond (lanes_body m) (fun r => len r <= n)) in E1.
      - exact E1.
      - intros r r' Hr _ Hb. apply lanes_body_steps in Hb. lia.
      - cbn. lia. }
    destruct (while (fuel_for n) tail16_cond (tail16_body m) (add_sum (sum1 r1) r1))
      as [r2 | |] eqn:E2; cbn [bind]; [| discriminate |].
    + unfold tail8. destruct (len r2 =? 1); [| discriminate].
      unfold load8. destruct (m (cur r2)); cbn [bind]; discriminate.
    + exfalso. revert E2.
      apply (while_no_timeout tail16_cond (tail16_body m) (fun r => Z.to_nat (len r))).
      * intros r r' Hc Hb. apply tail16_body_steps in Hb.
        unfold tail16_cond in Hc. apply Z.leb_le in Hc. lia.
      * intros r. unfold tail16_body.
        pose proof (load_le_returns m 2 (cur r)) as Hl. unfold load16.
        destruct (load_le 2 m (cur r)); cbn [bind]; congruence.
      * cbn [add_sum len]. unfold fuel_for. lia.
  - exfalso. revert E1.
    apply (while_no_timeout lanes_cond (lanes_body m) (fun r => Z.to_nat (len r))).
    + intros r r' Hc Hb. apply lanes_body_steps in Hb.
      unfold lanes_cond in Hc. apply Z.leb_le in Hc. lia.
    + intros r. unfold lanes_body.
      pose proof (load_le_returns m 8 (cur r)) as Hl. unfold load64.
      destruct (load_le 8 m (cur r)); cbn [bind]; congruence.
    + cbn [init len]. unfold fuel_for. lia.
Qed.

Theorem digest_32_le_returns (m : mem) (n : Z) :
  digest_32_le m n <> Timeout
  /\ forall v, digest_32_le m n = Done v -> 0 <= v < 2 ^ 16.
Proof.
  unfold digest_32_le, digest_state.
  pose proof (accumulate_returns m n) as Ha.
  destruct (accumulate m n) as [r | |] eqn:E; cbn [bind];
    [| split; [discriminate | intros v; discriminate] | contradiction].
  apply accumulate_in_range in E. unfold sum_in_range in E.
  pose proof (fold_settles_64 (fuel_for n) r (fuel_for_ge n) E) as F.
  split; [rewrite F; discriminate |].
  intros v Hv. rewrite F in Hv. cbn [bind] in Hv. injection Hv as <-.
  pose proof (norm_range (sum r)).
  rewrite result_small by (cbn [with_sum sum]; lia).
  cbn [with_sum sum]. lia.
Qed.

(** * Further properties of the routine *)

(** ** Memory safety *)

Lemma readable_list (m : mem) (k : nat) :
  forall p,
    (forall i, p <= i < p + Z.of_nat k -> m i <> None) ->
    exists b, length b = k /\ holds m p b.
Proof.
  induction k as [| k IH]; intros p H.
  - exists []. split; [reflexivity | exact I].
  - destruct (m p) as [x |] eqn:Hx; [| exfalso; apply (H p); [lia | exact Hx]].
    destruct (IH (p + 1)) as (b & Hl & Hb).
    + intros i Hi. apply H. lia.
    + exists (x :: b). split; [simpl; now rewrite Hl |].
      split; assumption.
Qed.

(** If the first [len] bytes behind [data] are readable, the call reads no
    unreadable byte and returns a 16-bit value, whatever the length. *)
Theorem digest_safe_on_readable (m : mem) (n : Z) :
  0 <= n ->
  (forall i, 0 <= i < n -> m i <> None) ->
  exists v, digest_32_le m n = Done v /\ 0 <= v < 2 ^ 16.
Proof.
  intros Hn Hr.
  destruct (readable_list m (Z.to_nat n) 0) as (b & Hl & Hb).
  - intros i Hi. apply Hr. lia.
  - pose proof (digest_general m b Hb) as H.
    rewrite Hl, Z2Nat.id in H by assumption.
    eexists. split; [exact H |].
    pose proof (norm_range (wrap64 (ideal_presum b))). lia.
Qed.

Lemma digest_safe_on_readable_witness :
  0 <= 3
  /\ (forall i, 0 <= i < 3 -> buf [x01; x02; x03] i <> None)
  /\ exists v, digest_32_le (buf [x01; x02; x03]) 3 = Done v /\ 0 <= v < 2 ^ 16.
Proof.
  assert (H : forall i, 0 <= i < 3 -> buf [x01; x02; x03] i <> None).
  { intros i Hi. unfold buf.
    destruct (Z.ltb_spec i 0) as [Hneg | _]; [lia |].
    destruct (Z.to_nat i) as [| [| [| k]]] eqn:E; try discriminate. lia. }
  split; [lia |]. split; [exact H |].
  apply (digest_safe_on_readable (buf [x01; x02; x03]) 3); [lia | exact H].
Defined.

(** ** Every byte below [len] is read *)

Lemma load_le_reads (m : mem) (k : nat) :
  forall p d, load_le k m p = Done d ->
    forall j, p <= j < p + Z.of_nat k -> m j <> None.
Proof.
  induction k as [| k IH]; intros p d H j Hj; [lia |].
  cbn [load_le] in H. unfold load8 in H.
  destruct (m p) as [x |] eqn:Hx; cbn [bind] in H; [| discriminate].
  destruct (load_le k m (p + 1)) as [hi | |] eqn:Hh; cbn [bind] in H;
    try discriminate.
  destruct (Z.eq_dec j p) as [-> | Hne]; [congruence |].
  apply (IH (p + 1) hi Hh). lia.
Qed.

Lemma while_exit (cond : regs -> bool) (body : regs -> outcome regs)
    (fuel : nat) :
  forall r r', while fuel cond body r = Done r' -> cond r' = false.
Proof.
  induction fuel as [| fuel IH]; intros r r'; cbn [while]; [discriminate |].
  destruct (cond r) eqn:Hc.
  - destruct (body r) as [r1 | |]; cbn [bind]; try discriminate. apply IH.
  - intros E. now injection E as <-.
Qed.

Lemma lanes_body_ahead (m : mem) (n i : Z) :
  m i = None ->
  forall r r',
    ahead n i r -> lanes_cond r = true -> lanes_body m r = Done r' ->
    ahead n i r'.
Proof.
  intros Hi r r' [[Hc Hn] Hci] _. unfold lanes_body.
  destruct (load64 m (cur r)) as [d | |] eqn:Hl; cbn [bind]; try discriminate.
  intros E. injection E as <-.
  pose proof (load_le_reads m 8 _ _ Hl i) as Hread.
  assert (cur r + 8 <= i).
  { destruct (Z_lt_dec i (cur r + 8)) as [Hlt | Hge]; [| lia].
    exfalso. apply Hread; [lia | exact Hi]. }
  unfold ahead, in_bounds. cbn. lia.
Qed.

Lemma tail16_body_ahead (m : mem) (n i : Z) :
  m i = None ->
  forall r r',
    ahead n i r -> tail16_cond r = true -> tail16_body m r = Done r' ->
    ahead n i r'.
Proof.
  intros Hi r r' [[Hc Hn] Hci] _. unfold tail16_body.
  destruct (load16 m (cur r)) as [d | |] eqn:Hl; cbn [bind]; try discriminate.
  intros E. injection E as <-.
  pose proof (load_le_reads m 2 _ _ Hl i) as Hread.
  assert (cur r + 2 <= i).
  { destruct (Z_lt_dec i (cur r + 2)) as [Hlt | Hge]; [| lia].
    exfalso. apply Hread; [lia | exact Hi]. }
  unfold ahead, in_bounds. cbn. lia.
Qed.

Lemma accumulate_faults (m : mem) (n i : Z) :
  0 <= i < n -> m i = None -> accumulate m n = Fault.
Proof.
  intros Hin Hi.
  pose proof (accumulate_returns m n) as Hret.
  destruct (accumulate m n) as [r | |] eqn:Ha; [| reflexivity | contradiction].
  exfalso. revert Ha. unfold accumulate, lanes.
  destruct (while (fuel_for n) lanes_cond (lanes_body m) (init n))
    as [r1 | |] eqn:E1; cbn [bind]; try discriminate.
  assert (A1 : ahead n i r1).
  { apply (while_invariant _ _ _ (lanes_body_ahead m n i Hi)) in E1;
      [exact E1 |]. unfold ahead, in_bounds. cbn. lia. }
  destruct (while (fuel_for n) tail16_cond (tail16_body m) (add_sum (sum1 r1) r1))
    as [r2 | |] eqn:E2; cbn [bind]; try discriminate.
  assert (A2 : ahead n i r2).
  { apply (while_invariant _ _ _ (tail16_body_ahead m n i Hi)) in E2;
      [exact E2 | exact A1]. }
  apply while_exit in E2. unfold tail16_cond in E2. apply Z.leb_gt in E2.
  destruct A2 as [[Hc Hn] Hci].
  unfold tail8.
  replace (len r2 =? 1) with true by (symmetry; apply Z.eqb_eq; lia).
  unfold load8. replace (cur r2) with i by lia. rewrite Hi. discriminate.
Qed.

(** If some byte at an offset below [len] is not readable, the call reads
    it: the run faults instead of returning a checksum. *)
Theorem digest_faults_on_unreadable (m : mem) (n i : Z) :
  0 <= i < n -> m i = None -> digest_32_le m n = Fault.
Proof.
  intros Hin Hi. unfold digest_32_le, digest_state.
  now rewrite (accumulate_faults m n i Hin Hi).
Qed.

Lemma digest_faults_on_unreadable_witness :
  0 <= 2 < 3 /\ buf [x01; x02] 2 = None
  /\ digest_32_le (buf [x01; x02]) 3 = Fault.
Proof.
  split; [lia |]. split; [reflexivity |].
  apply (digest_faults_on_unreadable (buf [x01; x02]) 3 2);
    [lia | reflexivity].
Defined.

(** ** Zero bytes *)

Lemma byteZ_zero (x : byte) : byteZ x = 0 -> x = x00.
Proof.
  intros H. unfold byteZ in H.
  assert (E : Byte.to_N x = 0%N) by lia.
  pose proof (Byte.of_to_N x) as Hx. rewrite E in Hx.
  cbn in Hx. now injection Hx.
Qed.

Lemma all_zero_skipn (k : nat) (b : list byte) :
  all_zero b -> all_zero (skipn k b).
Proof.
  intros H. unfold all_zero in *. rewrite Forall_forall in *.
  intros x Hx. apply H. rewrite <- (firstn_skipn k b).
  apply in_or_app. now right.
Qed.

Lemma all_zero_firstn (k : nat) (b : list byte) :
  all_zero b -> all_zero (firstn k b).
Proof.
  intros H. unfold all_zero in *. rewrite Forall_forall in *.
  intros x Hx. apply H. rewrite <- (firstn_skipn k b).
  apply in_or_app. now left.
Qed.

Lemma le_combine_zero (b : list byte) : all_zero b -> le_combine b = 0.
Proof.
  induction 1 as [| x b Hx _ IH]; [reflexivity |].
  cbn [le_combine]. rewrite IH, Hx. reflexivity.
Qed.

Lemma lane_zero (off q : nat) : forall b, all_zero b -> lane off q b = 0.
Proof.
  induction q as [| q IH]; intros b H; cbn [lane]; [reflexivity |].
  rewrite IH by now apply all_zero_skipn.
  rewrite le_combine_zero; [reflexivity |].
  now apply all_zero_firstn, all_zero_skipn.
Qed.

Lemma total_words16_zero (b : list byte) :
  total (words16 b) = 0 <-> all_zero b.
Proof.
  induction b as [| x | x y b IH] using list_pair_ind.
  - split; [constructor | reflexivity].
  - cbn [words16 total fold_right]. pose proof (byteZ_range x) as Bx. split.
    + intros H. constructor; [apply byteZ_zero; lia | constructor].
    + intros H. inversion H; subst. reflexivity.
  - cbn [words16 total fold_right]. fold (total (words16 b)).
    pose proof (byteZ_range x) as Bx. pose proof (byteZ_range y) as By.
    pose proof (total_words16_range b) as Bt. split.
    + intros H.
      constructor; [apply byteZ_zero; lia |].
      constructor; [apply byteZ_zero; lia |].
      apply IH. lia.
    + intros H. inversion H as [| ? ? Hx H1]; subst.
      inversion H1 as [| ? ? Hy H2]; subst.
      apply IH in H2. rewrite H2. reflexivity.
Qed.

Lemma norm_zero (x : Z) : norm x = 0 -> x = 0.
Proof.
  unfold norm. destruct (Z.eqb_spec x 0) as [E | N]; [easy |].
  assert (0 <= (x - 1) mod 65535) by (apply Z.mod_pos_bound; lia).
  lia.
Qed.

(** On a buffer of zero bytes the routine returns 0xFFFF, whatever the
    length: nothing can wrap. *)
Theorem digest_zero_buffer (n : nat) :
  digest_32_le (buf (repeat x00 n)) (Z.of_nat n) = Done 0xFFFF.
Proof.
  assert (Hz : all_zero (repeat x00 n)).
  { unfold all_zero. apply Forall_forall. intros x Hx.
    now apply repeat_spec in Hx. }
  pose proof (digest_general _ _ (holds_buf (repeat x00 n))) as H.
  rewrite repeat_length in H. rewrite H.
  unfold ideal_presum. rewrite !lane_zero by assumption.
  apply (all_zero_skipn (8 * chunks (repeat x00 n))) in Hz.
  apply total_words16_zero in Hz. rewrite Hz. reflexivity.
Qed.

(** Below 2^34 + 8 bytes, the routine returns 0xFFFF exactly on the buffers
    whose bytes are all zero. *)
Theorem digest_FFFF_iff_all_zero (b : list byte) :
  Z.of_nat (length b) < 2 ^ 34 + 8 ->
  (digest_32_le (buf b) (Z.of_nat (length b)) = Done 0xFFFF <-> all_zero b).
Proof.
  intros Hlen.
  rewrite (digest_spec (buf b) b (holds_buf b) (chunks_of_length b Hlen)).
  rewrite <- total_words16_zero.
  pose proof (total_words16_range b) as Ht.
  pose proof (norm_range (total (words16 b))) as Hn.
  split.
  - intros E.
    assert (E' : 65535 - norm (total (words16 b)) = 65535) by congruence.
    apply norm_zero; lia.
  - intros E. rewrite E. reflexivity.
Qed.

Lemma digest_FFFF_iff_all_zero_witness :
  Z.of_nat (length [x00; x00; x01]) < 2 ^ 34 + 8
  /\ (digest_32_le (buf [x00; x00; x01]) (Z.of_nat (length [x00; x00; x01]))
      = Done 0xFFFF <-> all_zero [x00; x00; x01]).
Proof.
  split; [simpl; lia |].
  apply (digest_FFFF_iff_all_zero [x00; x00; x01]). simpl; lia.
Defined.

(** ** Padding and word order *)

Lemma total_words16_pad (b : list byte) (k : nat) :
  total (words16 (b ++ repeat x00 k)) = total (words16 b).
Proof.
  assert (Hz : forall j, total (words16 (repeat x00 j)) = 0).
  { intros j. apply total_words16_zero. unfold all_zero.
    apply Forall_forall. intros x Hx. now apply repeat_spec in Hx. }
  induction b as [| x | x y b IH] using list_pair_ind.
  - cbn [app]. now rewrite Hz.
  - destruct k as [| k]; [reflexivity |].
    cbn [app repeat words16 total fold_right].
    fold (total (words16 (repeat x00 k))). rewrite Hz.
    change (byteZ x00) with 0. lia.
  - cbn [app words16 total fold_right].
    fold (total (words16 (b ++ repeat x00 k))). fold (total (words16 b)).
    now rewrite IH.
Qed.

(** Zero bytes appended to a buffer do not change its checksum, as long as
    the padded buffer is shorter than 2^34 + 8 bytes. *)
Theorem digest_ignores_zero_padding (b : list byte) (k : nat) :
  Z.of_nat (length (b ++ repeat x00 k)) < 2 ^ 34 + 8 ->
  digest_32_le (buf (b ++ repeat x00 k)) (Z.of_nat (length (b ++ repeat x00 k)))
  = digest_32_le (buf b) (Z.of_nat (length b)).
Proof.
  intros Hlen.
  assert (Hb : Z.of_nat (length b) < 2 ^ 34 + 8)
    by (rewrite length_app in Hlen; lia).
  rewrite (digest_spec _ _ (holds_buf (b ++ repeat x00 k))
             (chunks_of_length _ Hlen)).
  rewrite (digest_spec _ _ (holds_buf b) (chunks_of_length _ Hb)).
  now rewrite total_words16_pad.
Qed.

Lemma digest_ignores_zero_padding_witness :
  Z.of_nat (length ([x12; x34; x56] ++ repeat x00 3)) < 2 ^ 34 + 8
  /\ digest_32_le (buf ([x12; x34; x56] ++ repeat x00 3))
       (Z.of_nat (length ([x12; x34; x56] ++ repeat x00 3)))
     = digest_32_le (buf [x12; x34; x56]) (Z.of_nat (length [x12; x34; x56])).
Proof.
  split; [simpl; lia |].
  apply (digest_ignores_zero_padding [x12; x34; x56] 3). simpl; lia.
Defined.

(** Two even-length blocks can be exchanged without changing the checksum:
    the routine does not see the order of the 16-bit words. *)
Theorem digest_blocks_commute (u v : list byte) :
  Nat.even (length u) = true -> Nat.even (length v) = true ->
  Z.of_nat (length (u ++ v)) < 2 ^ 34 + 8 ->
  digest_32_le (buf (u ++ v)) (Z.of_nat (length (u ++ v)))
  = digest_32_le (buf (v ++ u)) (Z.of_nat (length (v ++ u))).
Proof.
  intros Hu Hv Hlen.
  assert (Hlen' : Z.of_nat (length (v ++ u)) < 2 ^ 34 + 8)
    by (rewrite length_app in *; lia).
  rewrite (digest_spec _ _ (holds_buf (u ++ v)) (chunks_of_length _ Hlen)).
  rewrite (digest_spec _ _ (holds_buf (v ++ u)) (chunks_of_length _ Hlen')).
  rewrite !words16_app_even, !total_app by assumption.
  now rewrite Z.add_comm.
Qed.

Lemma digest_blocks_commute_witness :
  Nat.even (length [x01; x02]) = true
  /\ Nat.even (length [xa0; xb0; xc0; xd0]) = true
  /\ Z.of_nat (length ([x01; x02] ++ [xa0; xb0; xc0; xd0])) < 2 ^ 34 + 8
  /\ digest_32_le (buf ([x01; x02] ++ [xa0; xb0; xc0; xd0]))
       (Z.of_nat (length ([x01; x02] ++ [xa0; xb0; xc0; xd0])))
     = digest_32_le (buf ([xa0; xb0; xc0; xd0] ++ [x01; x02]))
         (Z.of_nat (length ([xa0; xb0; xc0; xd0] ++ [x01; x02]))).
Proof.
  split; [reflexivity |]. split; [reflexivity |]. split; [simpl; lia |].
  apply (digest_blocks_commute [x01; x02] [xa0; xb0; xc0; xd0]);
    [reflexivity | reflexivity | simpl; lia].
Defined.

(** ** Verifying a buffer that carries its checksum *)

Lemma byteZ_of_Z (z : Z) : 0 <= z < 256 -> byteZ (byte_of_Z z) = z.
Proof.
  intros Hz. unfold byte_of_Z, byteZ.
  destruct (Byte.of_N (Z.to_N z)) as [x |] eqn:E.
  - apply Byte.to_of_N in E. rewrite E. lia.
  - apply Byte.of_N_None_iff in E. lia.
Qed.

Lemma words16_le16 (c : Z) :
  0 <= c < 65536 -> words16 (le16 c) = [c].
Proof.
  intros Hc. unfold le16. cbn [words16].
  assert (0 <= c mod 256 < 256) by (apply Z.mod_pos_bound; lia).
  assert (0 <= c / 256 < 256)
    by (split; [apply Z.div_pos; lia | apply Z.div_lt_upper_bound; lia]).
  rewrite !byteZ_of_Z by assumption.
  f_equal. pose proof (Z.div_mod c 256). lia.
Qed.

Lemma norm_of_complemented (w : Z) :
  0 <= w -> norm (w + (65535 - norm w)) = 65535.
Proof.
  intros Hw. unfold norm at 2.
  destruct (Z.eqb_spec w 0) as [-> | N]; [reflexivity |].
  pose proof (Z.div_mod (w - 1) 65535 ltac:(lia)) as Hd.
  assert (0 <= (w - 1) / 65535) by (apply Z.div_pos; lia).
  replace (w + (65535 - ((w - 1) mod 65535 + 1)))
    with (65535 * ((w - 1) / 65535 + 1)) by lia.
  apply norm_multiple. lia.
Qed.

(** Appending to an even-length buffer its own checksum, stored in
    little-endian order, gives a buffer whose checksum is 0x0000: the usual
    verification of a received packet. *)
Theorem digest_of_buffer_with_checksum (b : list byte) :
  Nat.even (length b) = true ->
  Z.of_nat (length b) + 2 < 2 ^ 34 + 8 ->
  exists c,
    digest_32_le (buf b) (Z.of_nat (length b)) = Done c
    /\ digest_32_le (buf (b ++ le16 c)) (Z.of_nat (length (b ++ le16 c)))
       = Done 0x0000.
Proof.
  intros He Hlen.
  pose proof (total_words16_range b) as Ht.
  pose proof (norm_range (total (words16 b))) as Hn.
  exists (65535 - norm (total (words16 b))). split.
  - apply digest_spec; [apply holds_buf | apply chunks_of_length; lia].
  - rewrite digest_spec;
      [| apply holds_buf
       | apply chunks_of_length; rewrite length_app; cbn [le16 length]; lia].
    rewrite words16_app_even, total_app, words16_le16 by (assumption || lia).
    cbn [total fold_right]. rewrite Z.add_0_r.
    now rewrite norm_of_complemented by lia.
Qed.

Lemma digest_of_buffer_with_checksum_witness :
  Nat.even (length [x45; x00; x00; x1c]) = true
  /\ Z.of_nat (length [x45; x00; x00; x1c]) + 2 < 2 ^ 34 + 8
  /\ exists c,
       digest_32_le (buf [x45; x00; x00; x1c])
         (Z.of_nat (length [x45; x00; x00; x1c])) = Done c
       /\ digest_32_le (buf ([x45; x00; x00; x1c] ++ le16 c))
            (Z.of_nat (length ([x45; x00; x00; x1c] ++ le16 c)))
          = Done 0x0000.
Proof.
  split; [reflexivity |]. split; [simpl; lia |].
  apply (digest_of_buffer_with_checksum [x45; x00; x00; x1c]);
    [reflexivity | simpl; lia].
Defined.

(** ** Error detection *)

Lemma byteZ_inj (x y : byte) : byteZ x = byteZ y -> x = y.
Proof.
  intros H. unfold byteZ in H.
  assert (E : Byte.to_N x = Byte.to_N y) by lia.
  pose proof (Byte.of_to_N x) as Hx. pose proof (Byte.of_to_N y) as Hy.
  rewrite E in Hx. congruence.
Qed.

(** The weight with which the byte at a given offset enters the word sum. *)
Lemma total_words16_at (u v : list byte) :
  exists c R,
    (c = 1 \/ c = 256)
    /\ forall x, total (words16 (u ++ x :: v)) = c * byteZ x + R.
Proof.
  induction u as [| a | a a' u IH] using list_pair_ind.
  - destruct v as [| z v].
    + exists 1, 0. split; [now left |]. intros x.
      cbn [app words16 total fold_right]. lia.
    + exists 1, (2 ^ 8 * byteZ z + total (words16 v)).
      split; [now left |]. intros x.
      cbn [app words16 total fold_right]. fold (total (words16 v)). lia.
  - exists 256, (byteZ a + total (words16 v)).
    split; [now right |]. intros x.
    cbn [app words16 total fold_right]. fold (total (words16 v)). lia.
  - destruct IH as (c & R & Hc & IH).
    exists c, (byteZ a + 2 ^ 8 * byteZ a' + R).
    split; [exact Hc |]. intros x.
    cbn [app words16 total fold_right].
    fold (total (words16 (u ++ x :: v))). rewrite IH. lia.
Qed.

Lemma norm_separates (a b : Z) :
  0 <= a -> 0 <= b -> a <> b -> -65535 < a - b < 65535 -> norm a <> norm b.
Proof.
  intros Ha Hb Hne Hd. unfold norm.
  destruct (Z.eqb_spec a 0) as [Ea | Na]; destruct (Z.eqb_spec b 0) as [Eb | Nb].
  - lia.
  - assert (0 <= (b - 1) mod 65535) by (apply Z.mod_pos_bound; lia). lia.
  - assert (0 <= (a - 1) mod 65535) by (apply Z.mod_pos_bound; lia). lia.
  - intros E.
    pose proof (Z.div_mod (a - 1) 65535 ltac:(lia)).
    pose proof (Z.div_mod (b - 1) 65535 ltac:(lia)).
    assert (a - b = 65535 * ((a - 1) / 65535 - (b - 1) / 65535)) by lia.
    lia.
Qed.

(** Changing a single byte of a buffer shorter than 2^34 + 8 bytes always
    changes its checksum. *)
Theorem digest_detects_single_byte_change (u v : list byte) (x y : byte) :
  x <> y ->
  Z.of_nat (length (u ++ x :: v)) < 2 ^ 34 + 8 ->
  digest_32_le (buf (u ++ x :: v)) (Z.of_nat (length (u ++ x :: v)))
  <> digest_32_le (buf (u ++ y :: v)) (Z.of_nat (length (u ++ y :: v))).
Proof.
  intros Hxy Hlen.
  assert (Hlen' : Z.of_nat (length (u ++ y :: v)) < 2 ^ 34 + 8)
    by (rewrite length_app in *; cbn [length] in *; lia).
  rewrite (digest_spec _ _ (holds_buf (u ++ x :: v)) (chunks_of_length _ Hlen)).
  rewrite (digest_spec _ _ (holds_buf (u ++ y :: v)) (chunks_of_length _ Hlen')).
  destruct (total_words16_at u v) as (c & R & Hc & Hw).
  pose proof (total_words16_range (u ++ x :: v)) as Hx.
  pose proof (total_words16_range (u ++ y :: v)) as Hy.
  pose proof (byteZ_range x) as Bx. pose proof (byteZ_range y) as By.
  assert (Hb : byteZ x <> byteZ y) by (intros E; now apply Hxy, byteZ_inj).
  rewrite !Hw in *.
  assert (Hn : norm (c * byteZ x + R) <> norm (c * byteZ y + R)).
  { apply norm_separates; destruct Hc; subst c; lia. }
  intros E. apply Hn.
  assert (65535 - norm (c * byteZ x + R) = 65535 - norm (c * byteZ y + R))
    by congruence.
  lia.
Qed.

Lemma digest_detects_single_byte_change_witness :
  x00 <> xff
  /\ Z.of_nat (length ([x11; x22; x33] ++ x00 :: [x44])) < 2 ^ 34 + 8
  /\ digest_32_le (buf ([x11; x22; x33] ++ x00 :: [x44]))
       (Z.of_nat (length ([x11; x22; x33] ++ x00 :: [x44])))
     <> digest_32_le (buf ([x11; x22; x33] ++ xff :: [x44]))
          (Z.of_nat (length ([x11; x22; x33] ++ xff :: [x44]))).
Proof.
  split; [discriminate |]. split; [simpl; lia |].
  apply (digest_detects_single_byte_change [x11; x22; x33] [x44] x00 xff);
    [discriminate | simpl; lia].
Defined.

(** ** The number of fold iterations *)

Lemma fold_settles_64_in_5 : fold_settles (2 ^ 64) 5.
Proof.
  apply (fold_settles_step (2 ^ 48 + 65535)); [| lia |].
  apply (fold_settles_step (2 ^ 32 + 65535)); [| lia |].
  apply (fold_settles_step (2 ^ 17 - 1)); [| lia |].
  apply (fold_settles_step 65536); [| lia |].
  apply fold_settles_base.
  all: intros s Hs; rewrite fold_step_arith; Z.div_mod_to_equations; lia.
Qed.

(** From any 64-bit value the fold loop evaluates its test at most five
    times, that is runs its body at most four times, and leaves in [sum]
    zero if it was zero and otherwise its residue modulo 0xFFFF taken in
    1 .. 0xFFFF; from 0xFFFFFFFFFFFFFFFF four runs of the body are needed. *)
Theorem fold_loop_four_iterations (r : regs) :
  0 <= sum r < 2 ^ 64 ->
  fold_loop 5 r = Done (with_sum (norm (sum r)) r)
  /\ fold_loop 4 (with_sum 0xFFFFFFFFFFFFFFFF r) = Timeout.
Proof.
  intros Hs. split.
  - now apply fold_settles_64_in_5.
  - reflexivity.
Qed.

Lemma fold_loop_four_iterations_witness :
  0 <= sum (with_sum 0x1FFFE0001 (init 0)) < 2 ^ 64
  /\ fold_loop 5 (with_sum 0x1FFFE0001 (init 0))
     = Done (with_sum (norm (sum (with_sum 0x1FFFE0001 (init 0))))
               (with_sum 0x1FFFE0001 (init 0)))
  /\ fold_loop 4 (with_sum 0xFFFFFFFFFFFFFFFF (with_sum 0x1FFFE0001 (init 0)))
     = Timeout.
Proof.
  assert (H : 0 <= sum (with_sum 0x1FFFE0001 (init 0)) < 2 ^ 64) by (cbn; lia).
  split; [exact H |].
  apply (fold_loop_four_iterations (with_sum 0x1FFFE0001 (init 0)) H).
Defined.

(** ** Byte order *)

Lemma length_swap_pairs (b : list byte) : length (swap_pairs b) = length b.
Proof.
  induction b as [| x | x y b IH] using list_pair_ind;
    cbn [swap_pairs length]; [reflexivity | reflexivity |].
  now rewrite IH.
Qed.

Lemma total_words16_swapped (b : list byte) :
  Nat.even (length b) = true ->
  exists H, 0 <= H
    /\ total (words16 (swap_pairs b)) = 256 * total (words16 b) - 65535 * H
    /\ total (words16 b) <= 256 * total (words16 (swap_pairs b)).
Proof.
  induction b as [| x | x y b IH] using list_pair_ind; intros He.
  - exists 0. cbn. lia.
  - discriminate He.
  - destruct (IH He) as (H & H0 & E & Hle).
    exists (H + byteZ y).
    cbn [swap_pairs words16 total fold_right].
    fold (total (words16 (swap_pairs b))). fold (total (words16 b)).
    pose proof (byteZ_range x). pose proof (byteZ_range y).
    lia.
Qed.

Lemma bswap16_range (s : Z) :
  0 <= s < 65536 -> 0 <= bswap16 s < 65536 /\ (bswap16 s = 0 -> s = 0).
Proof.
  intros Hs. unfold bswap16. Z.div_mod_to_equations. lia.
Qed.

Lemma bswap16_complement (s : Z) :
  0 <= s < 65536 -> bswap16 (65535 - s) = 65535 - bswap16 s.
Proof.
  intros Hs. unfold bswap16. Z.div_mod_to_equations. lia.
Qed.

Lemma norm_bswap16 (W W' H : Z) :
  0 <= W -> 0 <= H ->
  W' = 256 * W - 65535 * H -> W <= 256 * W' ->
  norm W' = bswap16 (norm W).
Proof.
  intros HW HH E Hle.
  destruct (Z.eq_dec W 0) as [-> | N].
  - replace W' with 0 by lia. reflexivity.
  - pose proof (norm_range W) as Hn.
    assert (Hs : norm W = (W - 1) mod 65535 + 1).
    { unfold norm. destruct (Z.eqb_spec W 0); [lia | reflexivity]. }
    pose proof (Z.div_mod (W - 1) 65535 ltac:(lia)) as Hd.
    assert (Hm : 0 <= (W - 1) mod 65535 < 65535) by (apply Z.mod_pos_bound; lia).
    destruct (bswap16_range (norm W) Hn) as [Ht Ht0].
    assert (Et : 256 * norm W = bswap16 (norm W) + 65535 * (norm W / 256)).
    { unfold bswap16. pose proof (Z.div_mod (norm W) 256 ltac:(lia)). lia. }
    unfold norm at 1. destruct (Z.eqb_spec W' 0) as [E0 | _]; [lia |].
    replace (W' - 1)
      with (bswap16 (norm W) - 1
            + (norm W / 256 + 256 * ((W - 1) / 65535) - H) * 65535) by lia.
    rewrite Z.mod_add by lia.
    rewrite Z.mod_small; lia.
Qed.

(** Exchanging the two bytes of every 16-bit word of an even-length buffer
    exchanges the two bytes of its checksum: computed on the byte-swapped
    data, the routine gives the byte-swapped result. *)
Theorem digest_of_byte_swapped (b : list byte) :
  Nat.even (length b) = true ->
  Z.of_nat (length b) < 2 ^ 34 + 8 ->
  exists c,
    digest_32_le (buf b) (Z.of_nat (length b)) = Done c
    /\ digest_32_le (buf (swap_pairs b)) (Z.of_nat (length (swap_pairs b)))
       = Done (bswap16 c).
Proof.
  intros He Hlen.
  pose proof (total_words16_range b) as Ht.
  pose proof (norm_range (total (words16 b))) as Hn.
  exists (65535 - norm (total (words16 b))). split.
  - apply digest_spec; [apply holds_buf | now apply chunks_of_length].
  - rewrite digest_spec;
      [| apply holds_buf
       | apply chunks_of_length; now rewrite length_swap_pairs].
    destruct (total_words16_swapped b He) as (H & H0 & E & Hle).
    rewrite (norm_bswap16 (total (words16 b)) _ H) by (assumption || lia).
    now rewrite bswap16_complement.
Qed.

Lemma digest_of_byte_swapped_witness :
  Nat.even (length [x12; x34; xab; xcd]) = true
  /\ Z.of_nat (length [x12; x34; xab; xcd]) < 2 ^ 34 + 8
  /\ exists c,
       digest_32_le (buf [x12; x34; xab; xcd])
         (Z.of_nat (length [x12; x34; xab; xcd])) = Done c
       /\ digest_32_le (buf (swap_pairs [x12; x34; xab; xcd]))
            (Z.of_nat (length (swap_pairs [x12; x34; xab; xcd])))
          = Done (bswap16 c).
Proof.
  split; [reflexivity |]. split; [simpl; lia |].
  apply (digest_of_byte_swapped [x12; x34; xab; xcd]);
    [reflexivity | simpl; lia].
Defined.

(** ** The chunk loop alone *)

Lemma lanes_no_overflow_witness :
  Z.of_nat (chunks (all_ones 17)) <= 2 ^ 32
  /\ exists r,
       lanes (buf (all_ones 17)) (Z.of_nat (length (all_ones 17))) = Done r
       /\ ovf r = false.
Proof.
  split; [vm_compute; discriminate |].
  apply (lanes_no_overflow (all_ones 17)). vm_compute; discriminate.
Defined.

(** ** One byte, and concatenation *)

(** On a one-byte buffer only the odd-byte path contributes: the byte is
    taken as the low byte of a word and the result is its complement. *)
Theorem digest_one_byte (a : byte) :
  digest_32_le (buf [a]) 1 = Done (0xFFFF - byteZ a).
Proof.
  pose proof (byteZ_range a) as Ba.
  change 1 with (Z.of_nat (length [a])) at 1.
  rewrite (digest_spec (buf [a]) [a] (holds_buf _)) by (cbn; lia).
  cbn [words16 total fold_right]. rewrite Z.add_0_r.
  now rewrite norm_small by lia.
Qed.

Lemma norm_add (x y : Z) :
  0 <= x -> 0 <= y -> norm (norm x + norm y) = norm (x + y).
Proof.
  intros Hx Hy.
  pose proof (norm_range x). pose proof (norm_range y).
  rewrite norm_add_l by lia.
  rewrite (Z.add_comm x (norm y)), norm_add_l by lia.
  f_equal. lia.
Qed.

(** The checksum of a concatenation whose first part has even length is
    determined by the checksums of the parts: it is the complement of the
    one's-complement sum of their complements. *)
Theorem digest_of_concatenation (u v : list byte) :
  Nat.even (length u) = true ->
  Z.of_nat (length (u ++ v)) < 2 ^ 34 + 8 ->
  exists cu cv,
    digest_32_le (buf u) (Z.of_nat (length u)) = Done cu
    /\ digest_32_le (buf v) (Z.of_nat (length v)) = Done cv
    /\ digest_32_le (buf (u ++ v)) (Z.of_nat (length (u ++ v)))
       = Done (0xFFFF - oc_add (0xFFFF - cu) (0xFFFF - cv)).
Proof.
  intros He Hlen.
  assert (Hu : Z.of_nat (length u) < 2 ^ 34 + 8)
    by (rewrite length_app in Hlen; lia).
  assert (Hv : Z.of_nat (length v) < 2 ^ 34 + 8)
    by (rewrite length_app in Hlen; lia).
  pose proof (total_words16_range u) as Tu.
  pose proof (total_words16_range v) as Tv.
  pose proof (norm_range (total (words16 u))) as Nu.
  pose proof (norm_range (total (words16 v))) as Nv.
  exists (65535 - norm (total (words16 u))), (65535 - norm (total (words16 v))).
  split; [apply digest_spec; [apply holds_buf | now apply chunks_of_length] |].
  split; [apply digest_spec; [apply holds_buf | now apply chunks_of_length] |].
  rewrite (digest_spec _ _ (holds_buf (u ++ v)) (chunks_of_length _ Hlen)).
  rewrite words16_app_even, total_app by assumption.
  replace (65535 - (65535 - norm (total (words16 u))))
    with (norm (total (words16 u))) by lia.
  replace (65535 - (65535 - norm (total (words16 v))))
    with (norm (total (words16 v))) by lia.
  rewrite oc_add_norm, norm_add by lia.
  reflexivity.
Qed.

Lemma digest_of_concatenation_witness :
  Nat.even (length [xde; xad]) = true
  /\ Z.of_nat (length ([xde; xad] ++ [xbe; xef; x01])) < 2 ^ 34 + 8
  /\ exists cu cv,
       digest_32_le (buf [xde; xad]) (Z.of_nat (length [xde; xad])) = Done cu
       /\ digest_32_le (buf [xbe; xef; x01])
            (Z.of_nat (length [xbe; xef; x01])) = Done cv
       /\ digest_32_le (buf ([xde; xad] ++ [xbe; xef; x01]))
            (Z.of_nat (length ([xde; xad] ++ [xbe; xef; x01])))
          = Done (0xFFFF - oc_add (0xFFFF - cu) (0xFFFF - cv)).
Proof.
  split; [reflexivity |]. split; [simpl; lia |].
  apply (digest_of_concatenation [xde; xad] [xbe; xef; x01]);
    [reflexivity | simpl; lia].
Defined.
